(** * ArtistsController: aggregation, matching and persistence of artists

    A shallow embedding of [music_assistant/controllers/music/artists.py]
    (class [ArtistsController]) and the properties of its merge-by-key
    aggregation ([toptracks], [albums]), its insert-or-merge persistence
    ([add_db_item], [update_db_item]) and its cross-provider matching
    ([_match]).

    Conventions of the embedding:
    - media items are records, one module per Python class, so that
      [Track.name t] reads like [track.name];
    - [provider_ids] is a Python [set]: a [gset] of provider mappings;
    - a Python [dict] that is iterated in insertion order is an association
      list ([pydict]);
    - [async] methods are run to completion one after the other: a method is
      a function from the controller's state to an exception or a result and
      the next state. *)

From stdpp Require Import base strings list gmap sets pretty.

Set Default Proof Using "Type".
Set Warnings "-clear-no-such-hyp".
Local Open Scope string_scope.
Local Open Scope list_scope.

(** ** Enumerations *)

(** [ProviderType] is an enum whose members are declared outside this file;
    a member is identified by its [value] (the string the cache keys are
    built from).  [DATABASE] is the only member the controller names. *)
Record ProviderType := { value : string }.

Definition DATABASE : ProviderType := {| value := "database" |}.

#[global] Instance ProviderType_eq_dec : EqDecision ProviderType.
Proof. solve_decision. Defined.

#[global] Instance ProviderType_countable : Countable ProviderType.
Proof.
  apply (inj_countable' value (fun s => {| value := s |})).
  by intros [].
Defined.

Inductive MediaType := ARTIST | ALBUM | TRACK | PLAYLIST | RADIO | UNKNOWN.

#[global] Instance MediaType_eq_dec : EqDecision MediaType.
Proof. solve_decision. Defined.

(** Only [COMPILATION] is named by the controller. *)
Inductive AlbumType := ALBUM_TYPE_ALBUM | SINGLE | COMPILATION | ALBUM_TYPE_UNKNOWN.

#[global] Instance AlbumType_eq_dec : EqDecision AlbumType.
Proof. solve_decision. Defined.

Inductive EventType := MEDIA_ITEM_ADDED | MEDIA_ITEM_UPDATED.

#[global] Instance EventType_eq_dec : EqDecision EventType.
Proof. solve_decision. Defined.

(** ** Provider mappings *)

(** One entry of [provider_ids]: the item is known to provider instance
    [prov_id] (of type [prov_type]) under the id [item_id]. *)
Module MediaItemProviderId.
Record t := mk { item_id : string; prov_type : ProviderType; prov_id : string }.

#[global] Instance provider_id_eq_dec : EqDecision t.
Proof. solve_decision. Defined.

#[global] Instance provider_id_countable : Countable t.
Proof.
  apply (inj_countable' (fun x => (item_id x, prov_type x, prov_id x))
                        (fun '(i, ty, p) => mk i ty p)).
  by intros [].
Defined.
End MediaItemProviderId.

Abbreviation ProviderIds := (gset MediaItemProviderId.t).

(** Modelled from the spec: the metadata type is declared outside this
    file.  The spec describes [metadata] as an open-ended key/value
    payload. *)
Abbreviation Metadata := (gmap string string).

(** Modelled from the spec: [cur.update(incoming)], a method of the metadata
    type, is declared outside this file.  The spec has the metadata merged
    key by key, the incoming value overriding the existing one on a
    conflicting key; the value of the call is the merged payload. *)
Definition metadata_update (cur incoming : Metadata) : Metadata :=
  incoming ∪ cur.

(** ** Media items *)

Module Artist.
Record t := mk {
  item_id : string;
  provider : ProviderType;
  name : string;
  sort_name : string;
  musicbrainz_id : option string;
  metadata : Metadata;
  provider_ids : ProviderIds;
  in_library : bool;
}.

#[global] Instance artist_eq_dec : EqDecision t.
Proof. solve_decision. Defined.
End Artist.

Module Album.
Record t := mk {
  item_id : string;
  provider : ProviderType;
  name : string;
  sort_name : string;
  version : string;
  metadata : Metadata;
  provider_ids : ProviderIds;
  in_library : bool;
  album_type : AlbumType;
  artist : option Artist.t;
}.

#[global] Instance album_eq_dec : EqDecision t.
Proof. solve_decision. Defined.

(** [album.provider_ids.update(new)] *)
Definition update_provider_ids (new : ProviderIds) (a : t) : t :=
  mk (item_id a) (provider a) (name a) (sort_name a) (version a) (metadata a)
     (provider_ids a ∪ new) (in_library a) (album_type a) (artist a).

(** [album.in_library = b] *)
Definition set_in_library (b : bool) (a : t) : t :=
  mk (item_id a) (provider a) (name a) (sort_name a) (version a) (metadata a)
     (provider_ids a) b (album_type a) (artist a).
End Album.

Module ItemMapping.
Record t := mk {
  item_id : string;
  provider : ProviderType;
  name : string;
}.

#[global] Instance item_mapping_eq_dec : EqDecision t.
Proof. solve_decision. Defined.
End ItemMapping.

(** [track.album] is a full [Album], an [ItemMapping] or [None]. *)
Inductive TrackAlbum :=
  | NoAlbum
  | AlbumMapping (m : ItemMapping.t)
  | FullAlbum (a : Album.t).

#[global] Instance TrackAlbum_eq_dec : EqDecision TrackAlbum.
Proof. solve_decision. Defined.

(** [isinstance(album, ItemMapping)] *)
Definition is_ItemMapping (a : TrackAlbum) : bool :=
  match a with AlbumMapping _ => true | _ => false end.

Module Track.
Record t := mk {
  item_id : string;
  provider : ProviderType;
  name : string;
  sort_name : string;
  version : string;
  metadata : Metadata;
  provider_ids : ProviderIds;
  in_library : bool;
  album : TrackAlbum;
  artists : list Artist.t;
}.

#[global] Instance track_eq_dec : EqDecision t.
Proof. solve_decision. Defined.

(** [track.provider_ids.update(new)] *)
Definition update_provider_ids (new : ProviderIds) (x : t) : t :=
  mk (item_id x) (provider x) (name x) (sort_name x) (version x) (metadata x)
     (provider_ids x ∪ new) (in_library x) (album x) (artists x).
End Track.

(** ** Python dictionaries in insertion order *)

Section pydict.
Context {V : Type}.

Definition pydict := list (string * V).

(** [d.get(k)] *)
Fixpoint dict_get (k : string) (d : pydict) : option V :=
  match d with
  | [] => None
  | (k', v) :: d' => if decide (k = k') then Some v else dict_get k d'
  end.

(** [k in d] *)
Definition dict_mem (k : string) (d : pydict) : bool :=
  bool_decide (is_Some (dict_get k d)).

(** [d[k] = v]: an existing key keeps its position, a new key goes last. *)
Fixpoint dict_set (k : string) (v : V) (d : pydict) : pydict :=
  match d with
  | [] => [(k, v)]
  | (k', v') :: d' =>
      if decide (k = k') then (k, v) :: d' else (k', v') :: dict_set k v d'
  end.

(** Mutation of the object stored under [k]: [d[k].field = ...]. *)
Fixpoint dict_mutate (k : string) (f : V → V) (d : pydict) : pydict :=
  match d with
  | [] => []
  | (k', v') :: d' =>
      if decide (k = k') then (k', f v') :: d' else (k', v') :: dict_mutate k f d'
  end.

(** [list(d.values())] *)
Definition dict_values (d : pydict) : list V := d.*2.

Definition dict_keys (d : pydict) : list string := d.*1.
End pydict.

Arguments pydict : clear implicits.

(** ** Aggregation: merging the per-provider results *)

(** [key = f".{track.name}.{track.version}"] *)
Definition track_key (track : Track.t) : string :=
  "." +:+ Track.name track +:+ "." +:+ Track.version track.

(** [key = f".{album.name}.{album.version}"] *)
Definition album_key (album : Album.t) : string :=
  "." +:+ Album.name album +:+ "." +:+ Album.version album.

(** Body of the loop of [toptracks]. *)
Definition toptracks_step (final_items : pydict Track.t) (track : Track.t)
  : pydict Track.t :=
  let key := track_key track in
  if dict_mem key final_items
  then dict_mutate key (Track.update_provider_ids (Track.provider_ids track)) final_items
  else dict_set key track final_items.

(** The merge of [toptracks]: from the chained per-provider results to the
    returned list. *)
Definition toptracks_merge (tracks : list Track.t) : list Track.t :=
  dict_values (fold_left toptracks_step tracks []).

(** Body of the loop of [albums]. *)
Definition albums_step (final_items : pydict Album.t) (album : Album.t)
  : pydict Album.t :=
  let key := album_key album in
  let final_items :=
    if dict_mem key final_items
    then dict_mutate key (Album.update_provider_ids (Album.provider_ids album)) final_items
    else dict_set key album final_items in
  if Album.in_library album
  then dict_mutate key (Album.set_in_library true) final_items
  else final_items.

Definition albums_merge (albums : list Album.t) : list Album.t :=
  dict_values (fold_left albums_step albums []).

(** ** The controller's state and its exceptions *)

(** A row of the artists table.  The (de)serialisation of its JSON columns
    is performed outside this file; the columns hold the values
    themselves. *)
Record ArtistRow := {
  row_item_id : N;
  row_name : string;
  row_sort_name : string;
  row_musicbrainz_id : option string;
  row_metadata : Metadata;
  row_provider_ids : ProviderIds;
  row_in_library : bool;
}.

(** What is stored under a cache key: the listing of a provider, as it was
    serialised.  Reading a listing of the other kind back fails in
    deserialisation. *)
Inductive CacheValue :=
  | CachedTracks (items : list Track.t)
  | CachedAlbums (items : list Album.t).

(** [MassEvent(type, object_id=data.uri, data=data)]; the uri is a function
    of [data]. *)
Record MassEvent := { event_type : EventType; event_data : Artist.t }.

(** A task handed to [mass.create_task]: it is scheduled, nobody waits
    for it. *)
Inductive Task := CacheSet (cache_key : string) (data : CacheValue).

Record State := {
  db : list ArtistRow;
  cache : gmap string CacheValue;
  tasks : list Task;
  events : list MassEvent;
}.

Inductive Exception :=
  | AssertionError (msg : string)
  | AttributeError
  | MediaNotFoundError
  | DeserializationError.

(** A method of the controller: it raises, or returns a value and the next
    state. *)
Definition M (A : Type) : Type := State → Exception + (A * State).

Definition ret {A} (x : A) : M A := fun st => inr (x, st).

Definition raise {A} (e : Exception) : M A := fun _ => inl e.

Definition bind {A B} (m : M A) (k : A → M B) : M B :=
  fun st => match m st with
            | inl e => inl e
            | inr (x, st') => k x st'
            end.

Notation "x <- m ;; k" := (bind m (fun x => k))
  (at level 100, m at next level, right associativity).
Notation "m ;;; k" := (bind m (fun _ => k))
  (at level 100, right associativity).

#[global] Instance M_fmap : FMap M :=
  fun A B f m => x <- m ;; ret (f x).

Definition get_state : M State := fun st => inr (st, st).

Definition put_state (st : State) : M unit := fun _ => inr (tt, st).

(** [assert cond, msg] *)
Definition assert (cond : bool) (msg : string) : M unit :=
  if cond then ret tt else raise (AssertionError msg).

(** An attribute access on a value that may be [None]. *)
Definition not_none {A} (o : option A) : M A :=
  match o with Some x => ret x | None => raise AttributeError end.

(** [await asyncio.gather] over the coroutines: the results in the order
    of the calls. *)
Fixpoint gather {A} (coros : list (M A)) : M (list A) :=
  match coros with
  | [] => ret []
  | c :: coros' => x <- c ;; xs <- gather coros' ;; ret (x :: xs)
  end.

(** Python truthiness of an optional string, and [x or y]. *)
Definition truthy (x : option string) : bool :=
  match x with
  | Some s => bool_decide (s ≠ "")
  | None => false
  end.

Definition py_or (x y : option string) : option string :=
  if truthy x then x else y.

(** ** The database helper *)

(** Modelled from the spec: the database helper ([get_row], [get_rows],
    [insert], [update]) is an external collaborator.  [GetOne] returns the
    first row whose column equals the given value, [GetMany] all of them in
    table order, [Insert] appends a row under a fresh [item_id] (one more
    than the largest in use) and returns it, [Update] sets the given columns
    of the rows selected by [item_id]. *)
Definition database_get_row (P : ArtistRow → bool) : M (option ArtistRow) :=
  st <- get_state ;; ret (List.find P (db st)).

(** Modelled from the spec: [GetMany], the selected rows in table order. *)
Definition database_get_rows (P : ArtistRow → bool) : M (list ArtistRow) :=
  st <- get_state ;; ret (List.filter P (db st)).

(** Modelled from the spec: the [item_id] the database gives a new row. *)
Definition fresh_item_id (rows : list ArtistRow) : N :=
  (1 + fold_right N.max 0 (row_item_id <$> rows))%N.

(** Modelled from the spec: [Insert], which returns the stored row. *)
Definition database_insert (mk_row : N → ArtistRow) : M ArtistRow :=
  st <- get_state ;;
  let row := mk_row (fresh_item_id (db st)) in
  put_state {| db := db st ++ [row]; cache := cache st;
               tasks := tasks st; events := events st |} ;;;
  ret row.

(** Modelled from the spec: [Update] of the rows selected by [P]. *)
Definition database_update (P : ArtistRow → bool) (f : ArtistRow → ArtistRow)
  : M unit :=
  st <- get_state ;;
  put_state {| db := (fun r => if P r then f r else r) <$> db st;
               cache := cache st; tasks := tasks st; events := events st |}.

(** [Artist.from_db_row(row)] *)
Definition from_db_row (row : ArtistRow) : Artist.t :=
  Artist.mk (pretty (row_item_id row)) DATABASE (row_name row)
            (row_sort_name row) (row_musicbrainz_id row) (row_metadata row)
            (row_provider_ids row) (row_in_library row).

(** [item.to_db_row()]: every column but the [item_id], which the database
    assigns. *)
Definition to_db_row (item : Artist.t) (item_id : N) : ArtistRow :=
  {| row_item_id := item_id;
     row_name := Artist.name item;
     row_sort_name := Artist.sort_name item;
     row_musicbrainz_id := Artist.musicbrainz_id item;
     row_metadata := Artist.metadata item;
     row_provider_ids := Artist.provider_ids item;
     row_in_library := Artist.in_library item |}.

(** The match [{"item_id": item_id}]: the row's number, written as the
    string the media items carry. *)
Definition has_item_id (item_id : string) (row : ArtistRow) : bool :=
  bool_decide (pretty (row_item_id row) = item_id).

(** Modelled from the spec: [get_db_item] is inherited from the base
    controller, which is outside this file.  It reads the canonical record
    addressed by its [item_id], [None] when there is none. *)
Definition get_db_item (item_id : string) : M (option Artist.t) :=
  row <- database_get_row (has_item_id item_id) ;;
  ret (from_db_row <$> row).

(** [self.mass.signal_event(event)] *)
Definition signal_event (ev : MassEvent) : M unit :=
  st <- get_state ;;
  put_state {| db := db st; cache := cache st; tasks := tasks st;
               events := events st ++ [ev] |}.

(** [self.mass.create_task(task)]: the task is recorded as scheduled; when
    it runs is up to the event loop. *)
Definition create_task (t : Task) : M unit :=
  st <- get_state ;;
  put_state {| db := db st; cache := cache st; tasks := tasks st ++ [t];
               events := events st |}.

(** [await self.mass.cache.get(cache_key)] *)
Definition cache_get (cache_key : string) : M (option CacheValue) :=
  st <- get_state ;; ret (cache st !! cache_key).

(** ** The collaborators reached through [self.mass] *)

Module MusicProvider.
Record t := mk {
  type : ProviderType;
  id : string;
  name : string;
  supported_mediatypes : list MediaType;
  get_artist_toptracks : string → list Track.t;
  get_artist_albums : string → list Album.t;
}.
End MusicProvider.

(** The music providers, the track and album controllers, the metadata
    helper and the inherited [get_provider_item]: all of them are outside
    this file and do not touch the artists table they are called next to. *)
Record Mass := {
  music_providers : list MusicProvider.t;
  tracks_get : string → ProviderType → Track.t;
  tracks_search : string → ProviderType → list Track.t;
  albums_search : string → ProviderType → list Album.t;
  get_provider_item : string → ProviderType → Artist.t;
  get_artist_metadata : Artist.t → Artist.t;
}.

(** A [for] loop that returns from inside its body: the first element on
    which the body returns decides. *)
Fixpoint first_some {A B} (body : A → option B) (l : list A) : option B :=
  match l with
  | [] => None
  | x :: l' =>
      match body x with
      | Some y => Some y
      | None => first_some body l'
      end
  end.

Section ArtistsController.
Variable mass : Mass.

(** [self.mass.music.get_provider(provider_id)] *)
Definition get_provider (provider_id : string) : option MusicProvider.t :=
  List.find (fun prov => bool_decide (MusicProvider.id prov = provider_id))
            (music_providers mass).

(** Modelled from the spec: [get] is inherited from the base controller,
    which is outside this file.  The spec has the aggregation and the
    matching start from the canonical item: for the database provider [get]
    is the stored record.  For another provider the record is resolved by
    collaborators outside this file; that branch is the parameter
    [get_provider_item]. *)
Definition get (item_id : string) (provider : ProviderType) : M Artist.t :=
  if decide (provider = DATABASE)
  then
    db_item <- get_db_item item_id ;;
    match db_item with
    | Some artist => ret artist
    | None => raise MediaNotFoundError
    end
  else ret (get_provider_item mass item_id provider).

Definition get_provider_artist_toptracks (item_id provider_id : string)
  : M (list Track.t) :=
  match get_provider provider_id with
  | None => ret []
  | Some prov =>
      let cache_key :=
        value (MusicProvider.type prov) +:+ ".artist_toptracks." +:+ item_id in
      cached <- cache_get cache_key ;;
      match cached with
      | Some (CachedTracks (x :: xs)) => ret (x :: xs)
      | Some (CachedAlbums (_ :: _)) => raise DeserializationError
      | _ =>
          let items := MusicProvider.get_artist_toptracks prov item_id in
          create_task (CacheSet cache_key (CachedTracks items)) ;;;
          ret items
      end
  end.

Definition get_provider_artist_albums (item_id provider_id : string)
  : M (list Album.t) :=
  match get_provider provider_id with
  | None => ret []
  | Some prov =>
      let cache_key :=
        value (MusicProvider.type prov) +:+ ".artist_albums." +:+ item_id in
      cached <- cache_get cache_key ;;
      match cached with
      | Some (CachedAlbums (x :: xs)) => ret (x :: xs)
      | Some (CachedTracks (_ :: _)) => raise DeserializationError
      | _ =>
          let items := MusicProvider.get_artist_albums prov item_id in
          create_task (CacheSet cache_key (CachedAlbums items)) ;;;
          ret items
      end
  end.

Definition toptracks (item_id : string) (provider : ProviderType)
  : M (list Track.t) :=
  artist <- get item_id provider ;;
  let coros :=
    (fun item => get_provider_artist_toptracks
                   (MediaItemProviderId.item_id item)
                   (MediaItemProviderId.prov_id item))
      <$> elements (Artist.provider_ids artist) in
  results <- gather coros ;;
  ret (toptracks_merge (concat results)).

Definition albums (item_id : string) (provider : ProviderType)
  : M (list Album.t) :=
  artist <- get item_id provider ;;
  let coros :=
    (fun item => get_provider_artist_albums
                   (MediaItemProviderId.item_id item)
                   (MediaItemProviderId.prov_id item))
      <$> elements (Artist.provider_ids artist) in
  results <- gather coros ;;
  ret (albums_merge (concat results)).

(** *** Persistence *)

Definition update_db_item (item_id : string) (item : Artist.t) (overwrite : bool)
  : M Artist.t :=
  cur_item <- get_db_item item_id ;;
  merged <-
    (if overwrite
     then ret (Artist.metadata item, Artist.provider_ids item)
     else
       cur <- not_none cur_item ;;
       ret (metadata_update (Artist.metadata cur) (Artist.metadata item),
            Artist.provider_ids cur ∪ Artist.provider_ids item)) ;;
  let '(metadata, provider_ids) := merged in
  name <- (if overwrite then ret (Artist.name item)
           else Artist.name <$> not_none cur_item) ;;
  sort_name <- (if overwrite then ret (Artist.sort_name item)
                else Artist.sort_name <$> not_none cur_item) ;;
  musicbrainz_id <-
    (if truthy (Artist.musicbrainz_id item)
     then ret (Artist.musicbrainz_id item)
     else Artist.musicbrainz_id <$> not_none cur_item) ;;
  database_update (has_item_id item_id)
    (fun row =>
       {| row_item_id := row_item_id row;
          row_name := name;
          row_sort_name := sort_name;
          row_musicbrainz_id := musicbrainz_id;
          row_metadata := metadata;
          row_provider_ids := provider_ids;
          row_in_library := row_in_library row |}) ;;;
  db_item <- get_db_item item_id ;;
  db_item <- not_none db_item ;;
  signal_event {| event_type := MEDIA_ITEM_UPDATED; event_data := db_item |} ;;;
  ret db_item.

(** [cur_item] of [add_db_item] is a row ([get_row]) or an [Artist]
    ([from_db_row]); only its [item_id] is read. *)
Inductive CurItem :=
  | CurRow (row : ArtistRow)
  | CurArtist (row_artist : Artist.t).

Definition cur_item_id (cur_item : CurItem) : string :=
  match cur_item with
  | CurRow row => pretty (row_item_id row)
  | CurArtist row_artist => Artist.item_id row_artist
  end.

Definition add_db_item (item : Artist.t) (overwrite_existing : bool) : M Artist.t :=
  assert (bool_decide (Artist.provider_ids item ≠ ∅))
         "Album is missing provider id(s)" ;;;
  (* always try to grab existing item by musicbrainz_id *)
  cur_item <-
    (if truthy (Artist.musicbrainz_id item)
     then
       row <- database_get_row
                (fun row => bool_decide (row_musicbrainz_id row
                                         = Artist.musicbrainz_id item)) ;;
       ret (CurRow <$> row)
     else ret None) ;;
  cur_item <-
    match cur_item with
    | Some _ => ret cur_item
    | None =>
        (* fallback to matching by name *)
        rows <- database_get_rows
                  (fun row => bool_decide (row_sort_name row
                                           = Artist.sort_name item)) ;;
        ret (first_some
               (fun row =>
                  let row_artist := from_db_row row in
                  if decide (Artist.sort_name row_artist = Artist.sort_name item)
                  then Some (CurArtist row_artist)
                  else None)
               rows)
    end ;;
  match cur_item with
  | Some cur_item =>
      (* update existing *)
      update_db_item (cur_item_id cur_item) item overwrite_existing
  | None =>
      (* insert item *)
      new_item <- database_insert (to_db_row item) ;;
      let item_id := pretty (row_item_id new_item) in
      db_item <- get_db_item item_id ;;
      db_item <- not_none db_item ;;
      signal_event {| event_type := MEDIA_ITEM_ADDED; event_data := db_item |} ;;;
      ret db_item
  end.

(** *** Matching *)

(** The inner loops of the track phase of [_match]: the artist of the first
    search result that confirms the match with this reference track. *)
Definition match_track_result (db_artist : Artist.t) (ref_track : Track.t)
    (search_result_item : Track.t) : option Artist.t :=
  if decide (Track.sort_name search_result_item ≠ Track.sort_name ref_track)
  then None
  else
    first_some
      (fun search_item_artist =>
         if decide (Artist.sort_name search_item_artist
                    ≠ Artist.sort_name db_artist)
         then None
         else Some search_item_artist)
      (Track.artists search_result_item).

(** [ref_track] after "make sure we have a full track". *)
Definition full_track (ref_track : Track.t) : Track.t :=
  if is_ItemMapping (Track.album ref_track)
  then tracks_get mass (Track.item_id ref_track) (Track.provider ref_track)
  else ref_track.

(** The search strings of the track phase, in the order they are tried. *)
Definition track_search_strs (db_artist : Artist.t) (ref_track : Track.t)
  : list string :=
  [ Artist.name db_artist +:+ " - " +:+ Track.name ref_track;
    Artist.name db_artist +:+ " " +:+ Track.name ref_track;
    Track.name ref_track ].

Definition match_ref_track (db_artist : Artist.t) (provider : MusicProvider.t)
    (ref_track : Track.t) : option Artist.t :=
  let ref_track := full_track ref_track in
  first_some
    (fun search_str =>
       let search_results :=
         tracks_search mass search_str (MusicProvider.type provider) in
       first_some (match_track_result db_artist ref_track) search_results)
    (track_search_strs db_artist ref_track).

Definition track_phase (db_artist : Artist.t) (provider : MusicProvider.t)
    (ref_tracks : list Track.t) : option Artist.t :=
  first_some (match_ref_track db_artist provider) ref_tracks.

(** The inner loop of the album phase. *)
Definition match_album_result (ref_album : Album.t) (ref_album_artist : Artist.t)
    (search_result_item : Album.t) : option Artist.t :=
  match Album.artist search_result_item with
  | None => None
  | Some artist =>
      if decide (Album.sort_name search_result_item ≠ Album.sort_name ref_album)
      then None
      else
        (* artist must match 100% *)
        if decide (Artist.sort_name artist ≠ Artist.sort_name ref_album_artist)
        then None
        else Some artist
  end.

(** The search strings of the album phase, in the order they are tried. *)
Definition album_search_strs (db_artist : Artist.t) (ref_album : Album.t)
  : list string :=
  [ Album.name ref_album;
    Artist.name db_artist +:+ " - " +:+ Album.name ref_album;
    Artist.name db_artist +:+ " " +:+ Album.name ref_album ].

Definition match_ref_album (db_artist : Artist.t) (provider : MusicProvider.t)
    (ref_album : Album.t) : option Artist.t :=
  if decide (Album.album_type ref_album = COMPILATION) then None
  else
    match Album.artist ref_album with
    | None => None
    | Some ref_album_artist =>
        first_some
          (fun search_str =>
             let search_result :=
               albums_search mass search_str (MusicProvider.type provider) in
             first_some (match_album_result ref_album ref_album_artist)
                        search_result)
          (album_search_strs db_artist ref_album)
    end.

Definition album_phase (db_artist : Artist.t) (provider : MusicProvider.t)
    (artist_albums : list Album.t) : option Artist.t :=
  first_some (match_ref_album db_artist provider) artist_albums.

(** [_match]: the listings are awaited where the source awaits them; the
    searches are calls to collaborators, so each phase is the search for
    the first confirming artist followed by the update. *)
Definition _match (db_artist : Artist.t) (provider : MusicProvider.t) : M bool :=
  (* try to get a match with some reference tracks of this artist *)
  ref_tracks <- toptracks (Artist.item_id db_artist) (Artist.provider db_artist) ;;
  match track_phase db_artist provider ref_tracks with
  | Some search_item_artist =>
      let prov_artist :=
        get_provider_item mass (Artist.item_id search_item_artist)
                          (Artist.provider search_item_artist) in
      update_db_item (Artist.item_id db_artist) prov_artist false ;;;
      ret true
  | None =>
      (* try to get a match with some reference albums of this artist *)
      artist_albums <- albums (Artist.item_id db_artist) (Artist.provider db_artist) ;;
      match album_phase db_artist provider artist_albums with
      | Some artist =>
          let prov_artist :=
            get_provider_item mass (Artist.item_id artist)
                              (Artist.provider artist) in
          update_db_item (Artist.item_id db_artist) prov_artist false ;;;
          ret true
      | None => ret false
      end
  end.

Fixpoint match_artist_loop (db_artist : Artist.t)
    (cur_prov_types : gset ProviderType) (providers : list MusicProvider.t)
  : M unit :=
  match providers with
  | [] => ret tt
  | provider :: providers' =>
      if decide (MusicProvider.type provider ∈ cur_prov_types)
      then match_artist_loop db_artist cur_prov_types providers'
      else if decide (ARTIST ∉ MusicProvider.supported_mediatypes provider)
      then match_artist_loop db_artist cur_prov_types providers'
      else
        matched <- _match db_artist provider ;;
        if (matched : bool)
        then match_artist_loop db_artist
               (cur_prov_types ∪ {[ MusicProvider.type provider ]}) providers'
        else match_artist_loop db_artist cur_prov_types providers'
  end.

Definition match_artist (db_artist : Artist.t) : M unit :=
  assert (bool_decide (Artist.provider db_artist = DATABASE))
         "Matching only supported for database items!" ;;;
  let cur_prov_types : gset ProviderType :=
    set_map MediaItemProviderId.prov_type (Artist.provider_ids db_artist) in
  match_artist_loop db_artist cur_prov_types (music_providers mass).

Definition add (item : Artist.t) : M (option Artist.t) :=
  (* grab musicbrainz id and additional metadata *)
  let item := get_artist_metadata mass item in
  db_item <- add_db_item item false ;;
  (* also fetch same artist on all providers *)
  match_artist db_item ;;;
  get_db_item (Artist.item_id db_item).

End ArtistsController.

(** ** Reference points for the properties *)

(** The results of a listing that share the merge key [k], in the order of
    the listing. *)
Definition with_key {V} (key : V → string) (k : string) (l : list V) : list V :=
  filter (fun x => key x = k) l.

(** One step of a merge-by-key loop, as a function of what happens on a
    collision: [join cur v] is the stored entry after [v] collided with
    it. *)
Definition upsert {V} (key : V → string) (join : V → V → V)
    (d : pydict V) (v : V) : pydict V :=
  match dict_get (key v) d with
  | Some cur => dict_set (key v) (join cur v) d
  | None => dict_set (key v) v d
  end.

(** The entry a group of colliding results is merged into: the first of
    them, joined with the later ones in turn. *)
Definition merged {V} (join : V → V → V) (group : list V) : option V :=
  match group with
  | [] => None
  | first :: later => Some (fold_left join later first)
  end.

(** Every entry of the dictionary is stored under its own merge key. *)
Definition keyed {V} (key : V → string) (d : pydict V) : Prop :=
  ∀ k v, (k, v) ∈ d → key v = k.

(** What a colliding [track] does to the stored entry in [toptracks]. *)
Definition track_join (cur track : Track.t) : Track.t :=
  Track.update_provider_ids (Track.provider_ids track) cur.

(** What a colliding [album] does to the stored entry in [albums]. *)
Definition album_join (cur album : Album.t) : Album.t :=
  let cur := Album.update_provider_ids (Album.provider_ids album) cur in
  if Album.in_library album then Album.set_in_library true cur else cur.

(** What it means for two colliding results [a] and [b] of the listing [l]
    to be merged by [merge]: the output has exactly one entry [e] under
    their key; the provider mappings of [e] are the union of the mappings of
    all results of [l] with that key, hence contain those of [a] and [b],
    and are exactly their union when no third result collides; and a
    reordering of [l] leads to the same mappings. *)
Definition collision_merged {V} (key : V → string) (pids : V → ProviderIds)
    (merge : list V → list V) (l : list V) (a b : V) : Prop :=
  ∃ e,
    with_key key (key a) (merge l) = [e]
    ∧ pids e = ⋃ (pids <$> with_key key (key a) l)
    ∧ pids a ∪ pids b ⊆ pids e
    ∧ ((∀ c, c ∈ l → key c = key a → c = a ∨ c = b) → pids e = pids a ∪ pids b)
    ∧ ∀ l', l' ≡ₚ l →
        ∃ e', with_key key (key a) (merge l') = [e'] ∧ pids e' = pids e.

(** The columns [update_db_item] writes, computed from the incoming [item]
    and the row [cur] read at its start, into a row [row] selected by the
    update ([item_id] and [in_library] are not written). *)
Definition written_row (item : Artist.t) (overwrite : bool) (cur row : ArtistRow)
  : ArtistRow :=
  {| row_item_id := row_item_id row;
     row_name := if overwrite then Artist.name item else row_name cur;
     row_sort_name :=
       if overwrite then Artist.sort_name item else row_sort_name cur;
     row_musicbrainz_id :=
       py_or (Artist.musicbrainz_id item) (row_musicbrainz_id cur);
     row_metadata :=
       if overwrite then Artist.metadata item
       else metadata_update (row_metadata cur) (Artist.metadata item);
     row_provider_ids :=
       if overwrite then Artist.provider_ids item
       else row_provider_ids cur ∪ Artist.provider_ids item;
     row_in_library := row_in_library row |}.

(** The state [update_db_item] leaves behind when the record exists. *)
Definition updated_state (item_id : string) (item : Artist.t) (overwrite : bool)
    (cur : ArtistRow) (st : State) : State :=
  {| db := (fun row => if has_item_id item_id row
                       then written_row item overwrite cur row else row)
           <$> db st;
     cache := cache st;
     tasks := tasks st;
     events := events st
               ++ [ {| event_type := MEDIA_ITEM_UPDATED;
                       event_data :=
                         from_db_row (written_row item overwrite cur cur) |} ] |}.

(** The first row whose [musicbrainz_id] is the (non-empty) one of [item]. *)
Definition row_by_musicbrainz_id (item : Artist.t) (rows : list ArtistRow)
  : option ArtistRow :=
  if truthy (Artist.musicbrainz_id item)
  then List.find (fun row => bool_decide (row_musicbrainz_id row
                                          = Artist.musicbrainz_id item)) rows
  else None.

(** The first row whose [sort_name] is the one of [item]. *)
Definition row_by_sort_name (item : Artist.t) (rows : list ArtistRow)
  : option ArtistRow :=
  List.find (fun row => bool_decide (row_sort_name row = Artist.sort_name item))
            rows.

(** The state [add_db_item] leaves behind when it inserts. *)
Definition inserted_state (item : Artist.t) (st : State) : State :=
  let row := to_db_row item (fresh_item_id (db st)) in
  {| db := db st ++ [row];
     cache := cache st;
     tasks := tasks st;
     events := events st
               ++ [ {| event_type := MEDIA_ITEM_ADDED;
                       event_data := from_db_row row |} ] |}.

(** A search result of the track phase confirms the match through one of
    its artists. *)
Definition track_confirms (db_artist : Artist.t) (ref_track : Track.t)
    (search_result_item : Track.t) (search_item_artist : Artist.t) : Prop :=
  Track.sort_name search_result_item = Track.sort_name ref_track
  ∧ search_item_artist ∈ Track.artists search_result_item
  ∧ Artist.sort_name search_item_artist = Artist.sort_name db_artist.

(** A search result of the album phase confirms the match: it has an
    artist, its [sort_name] is the reference album's, and its artist's
    [sort_name] is the one of the reference album's artist. *)
Definition album_confirms (ref_album : Album.t) (search_result_item : Album.t)
    (artist : Artist.t) : Prop :=
  Album.artist search_result_item = Some artist
  ∧ Album.sort_name search_result_item = Album.sort_name ref_album
  ∧ ∃ ref_album_artist,
      Album.artist ref_album = Some ref_album_artist
      ∧ Artist.sort_name artist = Artist.sort_name ref_album_artist.

(** The album phase has something to confirm with: a reference album that is
    no compilation, one of its search strings, and a confirming result of
    that search. *)
Definition album_phase_confirmation (mass : Mass) (db_artist : Artist.t)
    (provider : MusicProvider.t) (artist_albums : list Album.t)
    (artist : Artist.t) : Prop :=
  ∃ ref_album search_str search_result_item,
    ref_album ∈ artist_albums
    ∧ Album.album_type ref_album ≠ COMPILATION
    ∧ search_str ∈ album_search_strs db_artist ref_album
    ∧ search_result_item
        ∈ albums_search mass search_str (MusicProvider.type provider)
    ∧ album_confirms ref_album search_result_item artist.

(** The track phase has something to confirm with. *)
Definition track_phase_confirmation (mass : Mass) (db_artist : Artist.t)
    (provider : MusicProvider.t) (ref_tracks : list Track.t)
    (search_item_artist : Artist.t) : Prop :=
  ∃ ref_track search_str search_result_item,
    ref_track ∈ ref_tracks
    ∧ search_str ∈ track_search_strs db_artist (full_track mass ref_track)
    ∧ search_result_item
        ∈ tracks_search mass search_str (MusicProvider.type provider)
    ∧ track_confirms db_artist (full_track mass ref_track)
                     search_result_item search_item_artist.

(** A method that reads the artists table and signals nothing: when it
    returns, the table and the event log are as before. *)
Definition leaves_records {A} (m : M A) : Prop :=
  ∀ st x st', m st = inr (x, st') → db st' = db st ∧ events st' = events st.

(** ** Sample data *)

Definition spotify : ProviderType := {| value := "spotify" |}.
Definition qobuz : ProviderType := {| value := "qobuz" |}.

(** The same track as two providers list it: one display name and version,
    everything else differs. *)
Definition sample_track_spotify : Track.t :=
  Track.mk "sp-t1" spotify "Intro" "intro" "" ∅
           {[ MediaItemProviderId.mk "sp-t1" spotify "spotify_1" ]}
           false NoAlbum [].

Definition sample_track_qobuz : Track.t :=
  Track.mk "qb-t1" qobuz "Intro" "intro (remaster)" ""
           {[ "explicit" := "no" ]}
           {[ MediaItemProviderId.mk "qb-t1" qobuz "qobuz_1" ]}
           true NoAlbum [].

(** A listing of the track with the [sort_name] and version of
    [sample_track_spotify] under another display name. *)
Definition renamed_track_qobuz : Track.t :=
  Track.mk "qb-t1" qobuz "INTRO" "intro" "" ∅
           {[ MediaItemProviderId.mk "qb-t1" qobuz "qobuz_1" ]}
           false NoAlbum [].

Definition sample_album_spotify : Album.t :=
  Album.mk "sp-a1" spotify "Debut" "debut" "" ∅
           {[ MediaItemProviderId.mk "sp-a1" spotify "spotify_1" ]}
           false ALBUM_TYPE_ALBUM None.

Definition sample_album_qobuz : Album.t :=
  Album.mk "qb-a1" qobuz "Debut" "debut (deluxe)" ""
           {[ "label" := "indie" ]}
           {[ MediaItemProviderId.mk "qb-a1" qobuz "qobuz_1" ]}
           true SINGLE None.

Definition renamed_album_qobuz : Album.t :=
  Album.mk "qb-a1" qobuz "DEBUT" "debut" "" ∅
           {[ MediaItemProviderId.mk "qb-a1" qobuz "qobuz_1" ]}
           true ALBUM_TYPE_ALBUM None.

(** A canonical record known on one provider, and the same artist as
    another provider describes it. *)
Definition sample_row : ArtistRow :=
  {| row_item_id := 1;
     row_name := "The Band";
     row_sort_name := "band, the";
     row_musicbrainz_id := Some "mbid-stored";
     row_metadata := {[ "genre" := "rock"; "country" := "nl" ]};
     row_provider_ids :=
       {[ MediaItemProviderId.mk "sp-artist-1" spotify "spotify_1" ]};
     row_in_library := true |}.

Definition sample_state : State :=
  {| db := [sample_row]; cache := ∅; tasks := []; events := [] |}.

Definition incoming_artist : Artist.t :=
  Artist.mk "qb-artist-1" qobuz "Band" "band" (Some "mbid-incoming")
            {[ "genre" := "indie"; "bio" := "a band" ]}
            {[ MediaItemProviderId.mk "qb-artist-1" qobuz "qobuz_1" ]}
            false.

(** The artist of [sample_row] as another provider lists it, after the
    metadata helper found its [musicbrainz_id]: the id is the stored one,
    the [sort_name] is not. *)
Definition enriched_artist : Artist.t :=
  Artist.mk "qb-artist-1" qobuz "Band" "band" (Some "mbid-stored")
            {[ "genre" := "indie" ]}
            {[ MediaItemProviderId.mk "qb-artist-1" qobuz "qobuz_1" ]}
            false.

(** An artist without [musicbrainz_id] under the [sort_name] of
    [sample_row], and one the database has never seen. *)
Definition namesake_artist : Artist.t :=
  Artist.mk "qb-artist-2" qobuz "Band, The" "band, the" None ∅
            {[ MediaItemProviderId.mk "qb-artist-2" qobuz "qobuz_1" ]}
            false.

Definition unknown_artist : Artist.t :=
  Artist.mk "qb-artist-3" qobuz "Solo" "solo" (Some "") ∅
            {[ MediaItemProviderId.mk "qb-artist-3" qobuz "qobuz_1" ]}
            false.

(** A world of two providers.  The canonical record of [sample_row] is
    linked to [spotify_provider] only; there its listing has an album that
    belongs to another artist.  [guest_mass] finds that album on
    [qobuz_provider]; [quiet_mass] finds nothing there. *)
Definition other_artist_spotify : Artist.t :=
  Artist.mk "sp-artist-9" spotify "Other" "other" None ∅ ∅ false.

Definition other_artist_qobuz : Artist.t :=
  Artist.mk "qb-artist-9" qobuz "Other" "other" None ∅
            {[ MediaItemProviderId.mk "qb-artist-9" qobuz "qobuz_1" ]}
            false.

Definition guest_album_spotify : Album.t :=
  Album.mk "sp-a2" spotify "Split" "split" "" ∅
           {[ MediaItemProviderId.mk "sp-a2" spotify "spotify_1" ]}
           false ALBUM_TYPE_ALBUM (Some other_artist_spotify).

Definition guest_album_qobuz : Album.t :=
  Album.mk "qb-a2" qobuz "Split" "split" "" ∅
           {[ MediaItemProviderId.mk "qb-a2" qobuz "qobuz_1" ]}
           false ALBUM_TYPE_ALBUM (Some other_artist_qobuz).

Definition spotify_provider : MusicProvider.t :=
  MusicProvider.mk spotify "spotify_1" "Spotify" [ARTIST; ALBUM; TRACK]
                   (fun _ => [sample_track_spotify])
                   (fun _ => [guest_album_spotify]).

Definition qobuz_provider : MusicProvider.t :=
  MusicProvider.mk qobuz "qobuz_1" "Qobuz" [ARTIST; ALBUM; TRACK]
                   (fun _ => []) (fun _ => []).

Definition quiet_mass : Mass :=
  {| music_providers := [spotify_provider; qobuz_provider];
     tracks_get := fun _ _ => sample_track_spotify;
     tracks_search := fun _ _ => [];
     albums_search := fun _ _ => [];
     get_provider_item := fun _ _ => other_artist_qobuz;
     get_artist_metadata := fun item => item |}.

Definition guest_mass : Mass :=
  {| music_providers := [spotify_provider; qobuz_provider];
     tracks_get := fun _ _ => sample_track_spotify;
     tracks_search := fun _ _ => [];
     albums_search :=
       fun search_str type =>
         if bool_decide (search_str = "Split" ∧ type = qobuz)
         then [guest_album_qobuz] else [];
     get_provider_item := fun _ _ => other_artist_qobuz;
     get_artist_metadata := fun item => item |}.

(** [sample_state] after the top tracks, and then the albums, of the sample
    record were listed from [spotify_provider]: the cache writes are
    scheduled. *)
Definition sample_state_tracks_listed : State :=
  {| db := [sample_row]; cache := ∅;
     tasks := [ CacheSet "spotify.artist_toptracks.sp-artist-1"
                         (CachedTracks [sample_track_spotify]) ];
     events := [] |}.

Definition sample_state_listed : State :=
  {| db := [sample_row]; cache := ∅;
     tasks := [ CacheSet "spotify.artist_toptracks.sp-artist-1"
                         (CachedTracks [sample_track_spotify]);
                CacheSet "spotify.artist_albums.sp-artist-1"
                         (CachedAlbums [guest_album_spotify]) ];
     events := [] |}.

(** ** Reference points for the further properties *)

(** The keys of a listing in the order they are first seen, each once. *)
Fixpoint first_occurrences (ks : list string) : list string :=
  match ks with
  | [] => []
  | k :: ks' => k :: filter (fun k' => k' ≠ k) (first_occurrences ks')
  end.

(** What one result does to the keys of the dictionary. *)
Definition note_key (seen : list string) (k : string) : list string :=
  if decide (k ∈ seen) then seen else seen ++ [k].

(** A track whose display name ends in what another listing of it carries
    at the start of the version. *)
Definition sample_track_dotted_name : Track.t :=
  Track.mk "sp-t2" spotify "Vol.1" "vol.1" "Remaster" ∅
           {[ MediaItemProviderId.mk "sp-t2" spotify "spotify_1" ]}
           false NoAlbum [].

Definition sample_track_dotted_version : Track.t :=
  Track.mk "qb-t2" qobuz "Vol" "vol" "1.Remaster" ∅
           {[ MediaItemProviderId.mk "qb-t2" qobuz "qobuz_1" ]}
           false NoAlbum [].

(** Modelled from the spec: [cache.set(cache_key, data)], the body of a
    scheduled cache write, is an external collaborator; once it ran, the
    cache holds [data] under [cache_key]. *)
Definition cache_set (cache_key : string) (data : CacheValue) (st : State)
  : State :=
  {| db := db st; cache := <[cache_key := data]> (cache st);
     tasks := tasks st; events := events st |}.

(** A second account on the provider type of [spotify_provider], with a
    listing of its own. *)
Definition spotify_provider_2 : MusicProvider.t :=
  MusicProvider.mk spotify "spotify_2" "Spotify (family)" [ARTIST; ALBUM; TRACK]
                   (fun _ => [renamed_track_qobuz])
                   (fun _ => [renamed_album_qobuz]).

Definition twin_mass : Mass :=
  {| music_providers := [spotify_provider; spotify_provider_2];
     tracks_get := fun _ _ => sample_track_spotify;
     tracks_search := fun _ _ => [];
     albums_search := fun _ _ => [];
     get_provider_item := fun _ _ => other_artist_qobuz;
     get_artist_metadata := fun item => item |}.

(** A world in which no provider is registered. *)
Definition offline_mass : Mass :=
  {| music_providers := [];
     tracks_get := fun _ _ => sample_track_spotify;
     tracks_search := fun _ _ => [];
     albums_search := fun _ _ => [];
     get_provider_item := fun _ _ => other_artist_qobuz;
     get_artist_metadata := fun item => item |}.

(** Row by row, the second table is the first one with provenance added:
    the same records under the same [item_id], [name], [sort_name] and
    [in_library], none of their provider mappings or metadata keys lost. *)
Definition row_only_adds (row row' : ArtistRow) : Prop :=
  row_item_id row' = row_item_id row
  ∧ row_name row' = row_name row
  ∧ row_sort_name row' = row_sort_name row
  ∧ row_in_library row' = row_in_library row
  ∧ row_provider_ids row ⊆ row_provider_ids row'
  ∧ dom (row_metadata row) ⊆ dom (row_metadata row').

Definition only_adds_mappings (rows rows' : list ArtistRow) : Prop :=
  Forall2 row_only_adds rows rows'.

(** A method that, run on a table with unique [item_id]s, only adds
    provenance to it. *)
Definition keeps_records {A} (m : M A) : Prop :=
  ∀ st x st',
    NoDup (row_item_id <$> db st) →
    m st = inr (x, st') → only_adds_mappings (db st) (db st').

(** The artist of [sample_row] as [qobuz_provider] knows it, a track of it
    there, and a world in which the track search on [qobuz_provider] finds
    that track (and the album search the album of [guest_mass]). *)
Definition band_artist_qobuz : Artist.t :=
  Artist.mk "qb-artist-1" qobuz "The Band" "band, the" None
            {[ "bio" := "a band" ]}
            {[ MediaItemProviderId.mk "qb-artist-1" qobuz "qobuz_1" ]}
            false.

Definition band_track_qobuz : Track.t :=
  Track.mk "qb-t1" qobuz "Intro" "intro" "" ∅
           {[ MediaItemProviderId.mk "qb-t1" qobuz "qobuz_1" ]}
           false NoAlbum [other_artist_qobuz; band_artist_qobuz].

Definition track_mass : Mass :=
  {| music_providers := [spotify_provider; qobuz_provider];
     tracks_get := fun _ _ => sample_track_spotify;
     tracks_search :=
       fun search_str type =>
         if bool_decide (search_str = "The Band - Intro" ∧ type = qobuz)
         then [band_track_qobuz] else [];
     albums_search :=
       fun search_str type =>
         if bool_decide (search_str = "Split" ∧ type = qobuz)
         then [guest_album_qobuz] else [];
     get_provider_item := fun _ _ => band_artist_qobuz;
     get_artist_metadata := fun item => item |}.

(** A compilation the canonical artist appears on. *)
Definition compilation_album_spotify : Album.t :=
  Album.mk "sp-a3" spotify "Split" "split" "" ∅
           {[ MediaItemProviderId.mk "sp-a3" spotify "spotify_1" ]}
           false COMPILATION (Some other_artist_spotify).

(** A second account on the provider type of [qobuz_provider], and the
    world of [track_mass] with both accounts registered. *)
Definition qobuz_provider_2 : MusicProvider.t :=
  MusicProvider.mk qobuz "qobuz_2" "Qobuz (studio)" [ARTIST; ALBUM; TRACK]
                   (fun _ => []) (fun _ => []).

Definition two_accounts_mass : Mass :=
  {| music_providers := [spotify_provider; qobuz_provider; qobuz_provider_2];
     tracks_get := tracks_get track_mass;
     tracks_search := tracks_search track_mass;
     albums_search := albums_search track_mass;
     get_provider_item := get_provider_item track_mass;
     get_artist_metadata := get_artist_metadata track_mass |}.



(** * Properties *)

(** Runs the plumbing of [M] in the goal: binds, returns, and the reads and
    writes of the state. *)
Ltac run_M :=
  repeat (progress (unfold bind, ret, get_state, put_state, database_get_row,
                      database_get_rows, database_insert;
                    cbv beta iota)).

(** ** Dictionaries *)

Section pydict_facts.
Context {V : Type}.
Implicit Types (d : pydict V) (k : string) (v : V).

Lemma dict_get_set k k' v d :
  dict_get k (dict_set k' v d) = if decide (k = k') then Some v else dict_get k d.
Proof.
  induction d as [|[k0 v0] d IH]; simpl.
  - by repeat case_decide.
  - repeat (case_decide; simplify_eq/=); try done; by repeat case_decide.
Qed.

Lemma dict_get_mutate k k' (f : V → V) d :
  dict_get k (dict_mutate k' f d)
  = if decide (k = k') then f <$> dict_get k d else dict_get k d.
Proof.
  induction d as [|[k0 v0] d IH]; simpl.
  - by case_decide.
  - repeat (case_decide; simplify_eq/=); try done; by repeat case_decide.
Qed.

Lemma dict_mutate_set k (f : V → V) d cur :
  dict_get k d = Some cur → dict_mutate k f d = dict_set k (f cur) d.
Proof.
  induction d as [|[k0 v0] d IH]; simpl; [done|].
  case_decide; simplify_eq/=; [by intros [= ->]|].
  intros Hget. by rewrite IH.
Qed.

Lemma dict_mutate_absent k (f : V → V) d :
  dict_get k d = None → dict_mutate k f d = d.
Proof.
  induction d as [|[k0 v0] d IH]; simpl; [done|].
  case_decide; [done|]. intros Hget. by rewrite IH.
Qed.

Lemma dict_mem_true k d : dict_mem k d = true ↔ is_Some (dict_get k d).
Proof. unfold dict_mem. by rewrite bool_decide_eq_true. Qed.

Lemma dict_mem_false k d : dict_mem k d = false ↔ dict_get k d = None.
Proof.
  unfold dict_mem. rewrite bool_decide_eq_false.
  by rewrite eq_None_not_Some.
Qed.

Lemma dict_get_None_keys k d : dict_get k d = None ↔ k ∉ dict_keys d.
Proof.
  unfold dict_keys. induction d as [|[k0 v0] d IH]; simpl.
  - split; [intros _; apply not_elem_of_nil | done].
  - rewrite not_elem_of_cons. case_decide; [naive_solver|]. rewrite IH. naive_solver.
Qed.

Lemma dict_get_Some_elem k v d : dict_get k d = Some v → (k, v) ∈ d.
Proof.
  induction d as [|[k0 v0] d IH]; simpl; [done|].
  case_decide; simplify_eq/=.
  - intros [= ->]. apply elem_of_cons; by left.
  - intros Hget. apply elem_of_cons; right; auto.
Qed.

Lemma dict_keys_set k v d :
  dict_keys (dict_set k v d)
  = if dict_mem k d then dict_keys d else dict_keys d ++ [k].
Proof.
  unfold dict_keys. induction d as [|[k0 v0] d IH]; simpl; [done|].
  case_decide; simplify_eq/=.
  - unfold dict_mem; simpl. rewrite decide_True by done.
    by rewrite bool_decide_eq_true_2 by eauto.
  - rewrite IH. unfold dict_mem; simpl. rewrite decide_False by done.
    by destruct (bool_decide _).
Qed.

Lemma dict_keys_set_NoDup k v d :
  NoDup (dict_keys d) → NoDup (dict_keys (dict_set k v d)).
Proof.
  intros Hnd. rewrite dict_keys_set.
  destruct (dict_mem k d) eqn:Hmem; [done|].
  apply dict_mem_false, dict_get_None_keys in Hmem.
  apply NoDup_app. split_and!; [done| |apply NoDup_singleton].
  intros x Hx ->%list_elem_of_singleton. done.
Qed.

Lemma dict_set_elem k v d k' v' :
  (k', v') ∈ dict_set k v d → (k' = k ∧ v' = v) ∨ (k', v') ∈ d.
Proof.
  induction d as [|[k0 v0] d IH]; simpl.
  - intros ?%list_elem_of_singleton. simplify_eq. by left.
  - case_decide; simplify_eq/=; rewrite !elem_of_cons; naive_solver.
Qed.

End pydict_facts.

(** ** Merge-by-key loops *)

Section merge_facts.
Context {V : Type} (key : V → string) (join : V → V → V).
Implicit Types (d : pydict V) (k : string) (v : V) (l : list V).

Hypothesis join_key : ∀ cur v, key (join cur v) = key cur.

Lemma upsert_get k d v :
  dict_get k (upsert key join d v)
  = if decide (key v = k)
    then Some (from_option (fun cur => join cur v) v (dict_get k d))
    else dict_get k d.
Proof using Type.
  unfold upsert. case_decide as Hk.
  - subst k. destruct (dict_get (key v) d) as [cur|] eqn:Hget;
      rewrite dict_get_set, decide_True by done; done.
  - destruct (dict_get (key v) d) as [cur|];
      rewrite dict_get_set, decide_False by done; done.
Qed.

Lemma fold_upsert_get k l d :
  dict_get k (fold_left (upsert key join) l d)
  = match with_key key k l with
    | [] => dict_get k d
    | first :: later =>
        Some (fold_left join later
                (from_option (fun cur => join cur first) first (dict_get k d)))
    end.
Proof using Type.
  revert d. induction l as [|v l IH]; intros d; simpl; [done|].
  rewrite IH. unfold with_key. rewrite filter_cons.
  rewrite upsert_get. case_decide as Hk; simpl.
  - by destruct (filter _ l).
  - done.
Qed.

Lemma fold_upsert_lookup k l :
  dict_get k (fold_left (upsert key join) l []) = merged join (with_key key k l).
Proof using Type.
  rewrite fold_upsert_get. unfold merged. by destruct (with_key key k l).
Qed.

Lemma upsert_keys_NoDup d v :
  NoDup (dict_keys d) → NoDup (dict_keys (upsert key join d v)).
Proof using Type.
  unfold upsert. destruct (dict_get (key v) d); apply dict_keys_set_NoDup.
Qed.

Lemma fold_upsert_keys_NoDup l d :
  NoDup (dict_keys d) → NoDup (dict_keys (fold_left (upsert key join) l d)).
Proof using Type.
  revert d. induction l as [|v l IH]; intros d Hnd; simpl; [done|].
  by apply IH, upsert_keys_NoDup.
Qed.

Lemma upsert_keyed d v : keyed key d → keyed key (upsert key join d v).
Proof using join_key.
  intros Hd k' v' Hin. unfold upsert in Hin.
  destruct (dict_get (key v) d) as [cur|] eqn:Hget;
    apply dict_set_elem in Hin as [[-> ->]|Hin]; eauto.
  rewrite join_key. by apply Hd, dict_get_Some_elem.
Qed.

Lemma fold_upsert_keyed l d :
  keyed key d → keyed key (fold_left (upsert key join) l d).
Proof using join_key.
  revert d. induction l as [|v l IH]; intros d Hd; simpl; [done|].
  by apply IH, upsert_keyed.
Qed.

(** In a dictionary without repeated keys whose entries sit under their own
    key, the values with key [k] are exactly the entry stored under [k]. *)
Lemma keyed_values_with_key k d :
  NoDup (dict_keys d) → keyed key d →
  with_key key k (dict_values d) = option_list (dict_get k d).
Proof using Type.
  unfold with_key, dict_values, dict_keys.
  induction d as [|[k0 v0] d IH]; intros Hnd Hkeyed; [done|].
  rewrite fmap_cons in Hnd. rewrite fmap_cons. cbn [fst snd dict_get] in *.
  apply NoDup_cons in Hnd as [Hk0 Hnd].
  assert (key v0 = k0) as Hv0 by (apply Hkeyed, elem_of_cons; by left).
  assert (keyed key d) as Hd by (intros ???; apply Hkeyed, elem_of_cons; by right).
  subst k0. rewrite filter_cons.
  destruct (decide (key v0 = k)) as [Hk|Hk].
  - subst k. rewrite decide_True by done. cbn. f_equal.
    rewrite IH by done.
    by apply dict_get_None_keys in Hk0 as ->.
  - rewrite decide_False by done. by apply IH.
Qed.

(** The returned list holds, for every merge key, the one entry the results
    with that key were merged into. *)
Lemma merge_with_key k l :
  with_key key k (dict_values (fold_left (upsert key join) l []))
  = option_list (merged join (with_key key k l)).
Proof using join_key.
  rewrite keyed_values_with_key.
  - by rewrite fold_upsert_lookup.
  - apply fold_upsert_keys_NoDup, NoDup_nil_2.
  - apply fold_upsert_keyed. intros ?? Hin. by apply elem_of_nil in Hin.
Qed.

End merge_facts.

(** ** The loops of [toptracks] and [albums] as merge-by-key loops *)

Lemma fold_left_ext {A B} (f g : A → B → A) (l : list B) (x : A) :
  (∀ a b, f a b = g a b) → fold_left f l x = fold_left g l x.
Proof.
  intros Hfg. revert x. induction l as [|b l IH]; intros x; simpl; [done|].
  by rewrite Hfg, IH.
Qed.

Lemma dict_set_set {V} k (v v' : V) d :
  dict_set k v (dict_set k v' d) = dict_set k v d.
Proof.
  induction d as [|[k0 v0] d IH]; simpl.
  - by rewrite decide_True.
  - case_decide; simpl; [by rewrite decide_True|].
    rewrite decide_False by done. by rewrite IH.
Qed.

Lemma dict_get_set_same {V} k (v : V) d : dict_get k (dict_set k v d) = Some v.
Proof. by rewrite dict_get_set, decide_True. Qed.

Lemma toptracks_step_upsert d track :
  toptracks_step d track = upsert track_key track_join d track.
Proof.
  unfold toptracks_step, upsert.
  destruct (dict_mem (track_key track) d) eqn:Hmem.
  - apply dict_mem_true in Hmem as [cur Hcur]. rewrite Hcur.
    by rewrite (dict_mutate_set _ _ _ _ Hcur).
  - by apply dict_mem_false in Hmem as ->.
Qed.

Lemma albums_step_upsert d album :
  albums_step d album = upsert album_key album_join d album.
Proof.
  unfold albums_step, upsert, album_join.
  destruct (dict_mem (album_key album) d) eqn:Hmem.
  - apply dict_mem_true in Hmem as [cur Hcur]. rewrite Hcur.
    rewrite (dict_mutate_set _ _ _ _ Hcur).
    destruct (Album.in_library album); [|done].
    erewrite dict_mutate_set by apply dict_get_set_same.
    by rewrite dict_set_set.
  - apply dict_mem_false in Hmem. rewrite Hmem.
    destruct (Album.in_library album) eqn:Hlib; [|done].
    erewrite dict_mutate_set by apply dict_get_set_same.
    rewrite dict_set_set. f_equal.
    destruct album; simpl in *; by subst.
Qed.

Lemma track_join_key cur track : track_key (track_join cur track) = track_key cur.
Proof. done. Qed.

Lemma album_join_key cur album : album_key (album_join cur album) = album_key cur.
Proof. unfold album_join. by destruct (Album.in_library album). Qed.

Lemma toptracks_merge_with_key k tracks :
  with_key track_key k (toptracks_merge tracks)
  = option_list (merged track_join (with_key track_key k tracks)).
Proof.
  unfold toptracks_merge.
  rewrite (fold_left_ext _ _ _ _ toptracks_step_upsert).
  apply merge_with_key, track_join_key.
Qed.

Lemma albums_merge_with_key k albums :
  with_key album_key k (albums_merge albums)
  = option_list (merged album_join (with_key album_key k albums)).
Proof.
  unfold albums_merge.
  rewrite (fold_left_ext _ _ _ _ albums_step_upsert).
  apply merge_with_key, album_join_key.
Qed.

(** The entry a group is merged into keeps every field of the first result
    of the group but the provider mappings, which collect those of the
    later results (and, for albums, the library flag). *)
Lemma fold_track_join later first :
  fold_left track_join later first
  = Track.update_provider_ids (⋃ (Track.provider_ids <$> later)) first.
Proof.
  revert first. induction later as [|track later IH]; intros first.
  - destruct first. unfold Track.update_provider_ids; simpl.
    f_equal. by rewrite (right_id_L ∅ (∪)).
  - cbn [fold_left]. rewrite IH. rewrite fmap_cons.
    unfold track_join, Track.update_provider_ids; simpl.
    f_equal. by rewrite (assoc_L (∪)).
Qed.

Lemma fold_album_join later first :
  fold_left album_join later first
  = Album.set_in_library
      (Album.in_library first || existsb Album.in_library later)
      (Album.update_provider_ids (⋃ (Album.provider_ids <$> later)) first).
Proof.
  revert first. induction later as [|album later IH]; intros first.
  - destruct first. unfold Album.set_in_library, Album.update_provider_ids; simpl.
    by rewrite (right_id_L ∅ (∪)), orb_false_r.
  - cbn [fold_left existsb]. rewrite IH. rewrite fmap_cons.
    unfold album_join, Album.set_in_library, Album.update_provider_ids.
    destruct (Album.in_library album); simpl;
      by rewrite (assoc_L (∪)), ?orb_true_r.
Qed.

(** ** Colliding results are merged into one entry *)

Section collision_facts.
Context {V : Type} (key : V → string) (pids : V → ProviderIds).
Context (join : V → V → V) (merge : list V → list V).

Hypothesis merge_groups :
  ∀ k l, with_key key k (merge l)
         = option_list (merged join (with_key key k l)).
Hypothesis join_pids :
  ∀ later first,
    pids (fold_left join later first) = pids first ∪ ⋃ (pids <$> later).

Lemma elem_of_group_pids x k (l : list V) :
  x ∈ ⋃ (pids <$> with_key key k l) ↔ ∃ c, c ∈ l ∧ key c = k ∧ x ∈ pids c.
Proof using Type.
  rewrite elem_of_union_list. unfold with_key. split.
  - intros (X & HX & Hx). apply list_elem_of_fmap in HX as (c & -> & Hc).
    apply list_elem_of_filter in Hc as [??]. eauto.
  - intros (c & Hc & Hk & Hx). exists (pids c). split; [|done].
    apply list_elem_of_fmap_2, list_elem_of_filter. done.
Qed.

Lemma merged_entry (l : list V) a :
  a ∈ l →
  ∃ e, with_key key (key a) (merge l) = [e]
       ∧ pids e = ⋃ (pids <$> with_key key (key a) l).
Proof using merge_groups join_pids.
  intros Ha. rewrite merge_groups.
  assert (a ∈ with_key key (key a) l) as Hgroup
    by (by apply list_elem_of_filter).
  destruct (with_key key (key a) l) as [|first later].
  - by apply elem_of_nil in Hgroup.
  - exists (fold_left join later first). split; [done|].
    by rewrite join_pids, fmap_cons.
Qed.

Lemma collision_merged_intro (l : list V) a b :
  a ∈ l → b ∈ l → key a = key b → collision_merged key pids merge l a b.
Proof using merge_groups join_pids.
  intros Ha Hb Hab.
  destruct (merged_entry l a Ha) as (e & Hone & He).
  exists e. split_and!; [done|done| | |].
  - rewrite He. intros x Hx. apply elem_of_group_pids.
    apply elem_of_union in Hx as [Hx|Hx]; eauto.
  - intros Honly. apply set_eq. intros x. rewrite He, elem_of_group_pids.
    rewrite elem_of_union. split.
    + intros (c & Hc & Hk & Hx).
      destruct (Honly c Hc Hk) as [-> | ->]; auto.
    + intros [Hx|Hx]; eauto.
  - intros l' Hperm.
    assert (a ∈ l') as Ha' by (by rewrite Hperm).
    destruct (merged_entry l' a Ha') as (e' & Hone' & He').
    exists e'. split; [done|].
    apply set_eq. intros x. rewrite He, He', !elem_of_group_pids.
    by setoid_rewrite Hperm.
Qed.

End collision_facts.

Lemma toptracks_collision_merged tracks a b :
  a ∈ tracks → b ∈ tracks → track_key a = track_key b →
  collision_merged track_key Track.provider_ids toptracks_merge tracks a b.
Proof.
  apply (collision_merged_intro _ _ track_join).
  - apply toptracks_merge_with_key.
  - intros later first. by rewrite fold_track_join.
Qed.

Lemma albums_collision_merged albums a b :
  a ∈ albums → b ∈ albums → album_key a = album_key b →
  collision_merged album_key Album.provider_ids albums_merge albums a b.
Proof.
  apply (collision_merged_intro _ _ album_join).
  - apply albums_merge_with_key.
  - intros later first. by rewrite fold_album_join.
Qed.

(** ** Aggregation: the claims *)

(** C3.  For every two per-provider results of one aggregation ([toptracks]
    or [albums]) whose merge keys are equal, the aggregated output has
    exactly one entry for that key, and that entry's provider mappings are
    the union of the mappings of the results with that key (of the two
    results, when no third result collides), whatever the order of the
    results in the input. *)
Theorem aggregate_unions_colliding_results :
  (∀ (tracks : list Track.t) a b,
     a ∈ tracks → b ∈ tracks → track_key a = track_key b →
     collision_merged track_key Track.provider_ids toptracks_merge tracks a b)
  ∧ (∀ (albums : list Album.t) a b,
       a ∈ albums → b ∈ albums → album_key a = album_key b →
       collision_merged album_key Album.provider_ids albums_merge albums a b).
Proof.
  split; [apply toptracks_collision_merged | apply albums_collision_merged].
Qed.

Lemma aggregate_unions_colliding_results_witness :
  collision_merged track_key Track.provider_ids toptracks_merge
    [sample_track_spotify; sample_track_qobuz]
    sample_track_spotify sample_track_qobuz
  ∧ collision_merged album_key Album.provider_ids albums_merge
      [sample_album_qobuz; sample_album_spotify]
      sample_album_spotify sample_album_qobuz.
Proof.
  split.
  - apply (proj1 aggregate_unions_colliding_results);
      [apply list_elem_of_In; simpl; tauto ..| reflexivity].
  - apply (proj2 aggregate_unions_colliding_results);
      [apply list_elem_of_In; simpl; tauto ..| reflexivity].
Defined.

(** C8.  In album aggregation, if any per-provider album result with a given
    merge key has [in_library = True], the one output entry for that key has
    [in_library = True], in whatever order the colliding results arrive. *)
Theorem albums_in_library_sticky (albums : list Album.t) (a : Album.t) :
  a ∈ albums → Album.in_library a = true →
  ∀ albums', albums' ≡ₚ albums →
    ∃ e, with_key album_key (album_key a) (albums_merge albums') = [e]
         ∧ Album.in_library e = true.
Proof.
  intros Ha Hlib albums' Hperm.
  assert (a ∈ with_key album_key (album_key a) albums') as Hgroup.
  { apply list_elem_of_filter. split; [done|]. by rewrite Hperm. }
  rewrite albums_merge_with_key.
  destruct (with_key album_key (album_key a) albums') as [|first later].
  - by apply elem_of_nil in Hgroup.
  - eexists. split; [done|]. rewrite fold_album_join. simpl.
    apply elem_of_cons in Hgroup as [<- | Hlater].
    + by rewrite Hlib.
    + apply orb_true_iff. right. apply existsb_exists.
      exists a. split; [by apply list_elem_of_In | done].
Qed.

Lemma albums_in_library_sticky_witness :
  ∃ e, with_key album_key (album_key sample_album_qobuz)
         (albums_merge [sample_album_spotify; sample_album_qobuz]) = [e]
       ∧ Album.in_library e = true.
Proof.
  apply (albums_in_library_sticky
           [sample_album_qobuz; sample_album_spotify] sample_album_qobuz).
  - apply list_elem_of_In; simpl; tauto.
  - reflexivity.
  - apply Permutation_swap.
Defined.

(** The output keeps the first-seen order of the keys. *)
Example toptracks_merge_order :
  toptracks_merge [sample_track_spotify; renamed_track_qobuz; sample_track_qobuz]
  = [ Track.update_provider_ids (Track.provider_ids sample_track_qobuz)
        sample_track_spotify;
      renamed_track_qobuz ].
Proof. reflexivity. Qed.

Example albums_merge_order :
  albums_merge [sample_album_spotify; renamed_album_qobuz; sample_album_qobuz]
  = [ Album.set_in_library true
        (Album.update_provider_ids (Album.provider_ids sample_album_qobuz)
           sample_album_spotify);
      renamed_album_qobuz ].
Proof. reflexivity. Qed.

(** C10.  When results collide on a merge key, the fields of the first-seen
    result win: the output entry is the first result with that key, with
    only the provider mappings of the later duplicates added (and, for
    albums, their [in_library] flag); every other field of a duplicate is
    dropped. *)
Theorem first_seen_fields_win :
  (∀ (tracks : list Track.t) k first later,
     with_key track_key k tracks = first :: later →
     with_key track_key k (toptracks_merge tracks)
     = [ Track.mk (Track.item_id first) (Track.provider first)
           (Track.name first) (Track.sort_name first) (Track.version first)
           (Track.metadata first)
           (Track.provider_ids first ∪ ⋃ (Track.provider_ids <$> later))
           (Track.in_library first) (Track.album first)
           (Track.artists first) ])
  ∧ (∀ (albums : list Album.t) k first later,
       with_key album_key k albums = first :: later →
       with_key album_key k (albums_merge albums)
       = [ Album.mk (Album.item_id first) (Album.provider first)
             (Album.name first) (Album.sort_name first) (Album.version first)
             (Album.metadata first)
             (Album.provider_ids first ∪ ⋃ (Album.provider_ids <$> later))
             (Album.in_library first || existsb Album.in_library later)
             (Album.album_type first) (Album.artist first) ]).
Proof.
  split.
  - intros tracks k first later Hgroup.
    rewrite toptracks_merge_with_key, Hgroup. simpl.
    by rewrite fold_track_join.
  - intros albums k first later Hgroup.
    rewrite albums_merge_with_key, Hgroup. simpl.
    by rewrite fold_album_join.
Qed.

Lemma first_seen_fields_win_witness :
  with_key track_key ".Intro."
    (toptracks_merge [sample_track_spotify; renamed_track_qobuz;
                      sample_track_qobuz])
  = [ Track.mk "sp-t1" spotify "Intro" "intro" "" ∅
        (Track.provider_ids sample_track_spotify
         ∪ ⋃ (Track.provider_ids <$> [sample_track_qobuz]))
        false NoAlbum [] ]
  ∧ with_key album_key ".Debut."
      (albums_merge [sample_album_spotify; renamed_album_qobuz;
                     sample_album_qobuz])
    = [ Album.mk "sp-a1" spotify "Debut" "debut" "" ∅
          (Album.provider_ids sample_album_spotify
           ∪ ⋃ (Album.provider_ids <$> [sample_album_qobuz]))
          true ALBUM_TYPE_ALBUM None ].
Proof.
  split.
  - apply (proj1 first_seen_fields_win
             [sample_track_spotify; renamed_track_qobuz; sample_track_qobuz]
             ".Intro." sample_track_spotify [sample_track_qobuz]).
    reflexivity.
  - apply (proj2 first_seen_fields_win
             [sample_album_spotify; renamed_album_qobuz; sample_album_qobuz]
             ".Debut." sample_album_spotify [sample_album_qobuz]).
    reflexivity.
Defined.

(** C4 as stated fails: the merge key is built from the display name, so
    two results with the [sort_name] and version of each other but different
    display names are not merged. *)
Lemma merge_key_by_sort_name_counterexample :
  ¬ (∀ a b : Track.t,
       Track.sort_name a = Track.sort_name b →
       Track.version a = Track.version b →
       ∃ e, toptracks_merge [a; b] = [e])
  ∧ ¬ (∀ a b : Album.t,
         Album.sort_name a = Album.sort_name b →
         Album.version a = Album.version b →
         ∃ e, albums_merge [a; b] = [e]).
Proof.
  split.
  - intros Hclaim.
    destruct (Hclaim sample_track_spotify renamed_track_qobuz eq_refl eq_refl)
      as [e He].
    assert (toptracks_merge [sample_track_spotify; renamed_track_qobuz]
            = [sample_track_spotify; renamed_track_qobuz]) as Hrun
      by reflexivity.
    rewrite Hrun in He. discriminate He.
  - intros Hclaim.
    destruct (Hclaim sample_album_spotify renamed_album_qobuz eq_refl eq_refl)
      as [e He].
    assert (albums_merge [sample_album_spotify; renamed_album_qobuz]
            = [sample_album_spotify; renamed_album_qobuz]) as Hrun
      by reflexivity.
    rewrite Hrun in He. discriminate He.
Qed.

Lemma toptracks_merge_distinct_keys (a b : Track.t) :
  track_key a ≠ track_key b → toptracks_merge [a; b] = [a; b].
Proof.
  intros Hne. unfold toptracks_merge.
  rewrite (fold_left_ext _ _ _ _ toptracks_step_upsert).
  cbn [fold_left]. unfold upsert at 2. cbn [dict_get dict_set].
  unfold upsert. cbn [dict_get dict_set].
  by rewrite !decide_False by done.
Qed.

Lemma albums_merge_distinct_keys (a b : Album.t) :
  album_key a ≠ album_key b → albums_merge [a; b] = [a; b].
Proof.
  intros Hne. unfold albums_merge.
  rewrite (fold_left_ext _ _ _ _ albums_step_upsert).
  cbn [fold_left]. unfold upsert at 2. cbn [dict_get dict_set].
  unfold upsert. cbn [dict_get dict_set].
  by rewrite !decide_False by done.
Qed.

(** C4 (amended).  The merge key of [toptracks] and [albums] is
    "." + name + "." + version with the display name: two results of a
    listing whose display names and versions are equal are merged into one
    entry whatever their [sort_name]s, and two results whose keys differ are
    kept apart. *)
Theorem merge_key_uses_display_name :
  (∀ (tracks : list Track.t) a b,
     a ∈ tracks → b ∈ tracks →
     Track.name a = Track.name b → Track.version a = Track.version b →
     collision_merged track_key Track.provider_ids toptracks_merge tracks a b)
  ∧ (∀ a b : Track.t,
       "." +:+ Track.name a +:+ "." +:+ Track.version a
       ≠ "." +:+ Track.name b +:+ "." +:+ Track.version b →
       toptracks_merge [a; b] = [a; b])
  ∧ (∀ (albums : list Album.t) a b,
       a ∈ albums → b ∈ albums →
       Album.name a = Album.name b → Album.version a = Album.version b →
       collision_merged album_key Album.provider_ids albums_merge albums a b)
  ∧ (∀ a b : Album.t,
       "." +:+ Album.name a +:+ "." +:+ Album.version a
       ≠ "." +:+ Album.name b +:+ "." +:+ Album.version b →
       albums_merge [a; b] = [a; b]).
Proof.
  split_and!.
  - intros tracks a b Ha Hb Hname Hversion.
    apply toptracks_collision_merged; [done..|].
    unfold track_key. by rewrite Hname, Hversion.
  - intros a b. apply toptracks_merge_distinct_keys.
  - intros albums a b Ha Hb Hname Hversion.
    apply albums_collision_merged; [done..|].
    unfold album_key. by rewrite Hname, Hversion.
  - intros a b. apply albums_merge_distinct_keys.
Qed.

Lemma merge_key_uses_display_name_witness :
  (Track.sort_name sample_track_spotify ≠ Track.sort_name sample_track_qobuz
   ∧ collision_merged track_key Track.provider_ids toptracks_merge
       [sample_track_spotify; sample_track_qobuz]
       sample_track_spotify sample_track_qobuz)
  ∧ toptracks_merge [sample_track_spotify; renamed_track_qobuz]
    = [sample_track_spotify; renamed_track_qobuz]
  ∧ (Album.sort_name sample_album_spotify ≠ Album.sort_name sample_album_qobuz
     ∧ collision_merged album_key Album.provider_ids albums_merge
         [sample_album_spotify; sample_album_qobuz]
         sample_album_spotify sample_album_qobuz)
  ∧ albums_merge [sample_album_spotify; renamed_album_qobuz]
    = [sample_album_spotify; renamed_album_qobuz].
Proof.
  destruct merge_key_uses_display_name as (Htracks & Htracks' & Halbums & Halbums').
  split_and!.
  - discriminate.
  - apply Htracks; [apply list_elem_of_In; simpl; tauto ..| reflexivity | reflexivity].
  - apply Htracks'. discriminate.
  - discriminate.
  - apply Halbums; [apply list_elem_of_In; simpl; tauto ..| reflexivity | reflexivity].
  - apply Halbums'. discriminate.
Defined.

(** ** Persistence *)

Lemma find_update_rows (P : ArtistRow → bool) (f : ArtistRow → ArtistRow) rows :
  (∀ row, P (f row) = P row) →
  List.find P ((fun row => if P row then f row else row) <$> rows)
  = f <$> List.find P rows.
Proof.
  intros HP. induction rows as [|row rows IH]; [done|].
  rewrite fmap_cons. cbn [List.find].
  destruct (P row) eqn:Hrow.
  - by rewrite HP, Hrow.
  - by rewrite Hrow, IH.
Qed.

Lemma has_item_id_written item_id item overwrite cur row :
  has_item_id item_id (written_row item overwrite cur row)
  = has_item_id item_id row.
Proof. done. Qed.

Lemma get_db_item_run item_id st :
  get_db_item item_id st
  = inr (from_db_row <$> List.find (has_item_id item_id) (db st), st).
Proof. done. Qed.

(** [update_db_item] on an existing record: what it returns and the state it
    leaves. *)
Lemma update_db_item_run item_id item overwrite st cur :
  List.find (has_item_id item_id) (db st) = Some cur →
  update_db_item item_id item overwrite st
  = inr (from_db_row (written_row item overwrite cur cur),
         updated_state item_id item overwrite cur st).
Proof.
  intros Hcur.
  unfold update_db_item, bind at 1. rewrite get_db_item_run, Hcur.
  cbn [fmap option_fmap option_map].
  assert (∀ name sort_name musicbrainz_id metadata provider_ids,
    written_row item overwrite cur
    = (fun row =>
         {| row_item_id := row_item_id row;
            row_name := name; row_sort_name := sort_name;
            row_musicbrainz_id := musicbrainz_id;
            row_metadata := metadata; row_provider_ids := provider_ids;
            row_in_library := row_in_library row |}) →
    (database_update (has_item_id item_id)
       (fun row =>
          {| row_item_id := row_item_id row;
             row_name := name; row_sort_name := sort_name;
             row_musicbrainz_id := musicbrainz_id;
             row_metadata := metadata; row_provider_ids := provider_ids;
             row_in_library := row_in_library row |}) ;;;
     db_item <- get_db_item item_id ;;
     db_item <- not_none db_item ;;
     signal_event {| event_type := MEDIA_ITEM_UPDATED;
                     event_data := db_item |} ;;;
     ret db_item) st
    = inr (from_db_row (written_row item overwrite cur cur),
           updated_state item_id item overwrite cur st)) as Htail.
  { intros name sort_name musicbrainz_id metadata provider_ids <-.
    unfold bind at 1. unfold database_update, bind at 1.
    cbn [get_state put_state]. unfold bind at 1.
    rewrite get_db_item_run. cbn [db].
    rewrite find_update_rows, Hcur by done.
    done. }
  unfold py_or in Htail.
  destruct overwrite, (truthy (Artist.musicbrainz_id item)) eqn:Hmbid;
    cbn -[database_update get_db_item signal_event];
    apply Htail; unfold written_row, py_or; by rewrite Hmbid.
Qed.

(** After [update_db_item] the record can be read back as returned. *)
Lemma update_db_item_stored item_id item overwrite st cur :
  List.find (has_item_id item_id) (db st) = Some cur →
  get_db_item item_id (updated_state item_id item overwrite cur st)
  = inr (Some (from_db_row (written_row item overwrite cur cur)),
         updated_state item_id item overwrite cur st).
Proof.
  intros Hcur. rewrite get_db_item_run. cbn [db updated_state].
  by rewrite find_update_rows, Hcur.
Qed.

Lemma get_db_item_Some item_id st cur :
  get_db_item item_id st = inr (Some cur, st) →
  ∃ row, List.find (has_item_id item_id) (db st) = Some row
         ∧ cur = from_db_row row.
Proof.
  rewrite get_db_item_run. intros [= Hcur].
  destruct (List.find _ _) as [row|]; [|done].
  exists row. split; [done|]. by injection Hcur.
Qed.

(** C1.  [update_db_item] with [overwrite=True] replaces the stored
    [provider_ids] exactly with those of the incoming item; with
    [overwrite=False] the stored [provider_ids] are the union of the existing
    record's and the incoming item's, and the existing [name] and
    [sort_name] stay as they are. *)
Theorem update_db_item_provider_ids (st : State) (item_id : string)
    (item cur : Artist.t) :
  get_db_item item_id st = inr (Some cur, st) →
  (∃ db_item st',
     update_db_item item_id item true st = inr (db_item, st')
     ∧ get_db_item item_id st' = inr (Some db_item, st')
     ∧ Artist.provider_ids db_item = Artist.provider_ids item)
  ∧ (∃ db_item st',
       update_db_item item_id item false st = inr (db_item, st')
       ∧ get_db_item item_id st' = inr (Some db_item, st')
       ∧ Artist.provider_ids db_item
         = Artist.provider_ids cur ∪ Artist.provider_ids item
       ∧ Artist.name db_item = Artist.name cur
       ∧ Artist.sort_name db_item = Artist.sort_name cur).
Proof.
  intros (row & Hrow & ->)%get_db_item_Some. split.
  - eexists _, _. split; [by apply update_db_item_run|].
    split; [by apply update_db_item_stored|]. done.
  - eexists _, _. split; [by apply update_db_item_run|].
    split; [by apply update_db_item_stored|]. done.
Qed.

Lemma update_db_item_provider_ids_witness :
  (∃ db_item st',
     update_db_item "1" incoming_artist true sample_state = inr (db_item, st')
     ∧ get_db_item "1" st' = inr (Some db_item, st')
     ∧ Artist.provider_ids db_item = Artist.provider_ids incoming_artist)
  ∧ (∃ db_item st',
       update_db_item "1" incoming_artist false sample_state
       = inr (db_item, st')
       ∧ get_db_item "1" st' = inr (Some db_item, st')
       ∧ Artist.provider_ids db_item
         = Artist.provider_ids (from_db_row sample_row)
           ∪ Artist.provider_ids incoming_artist
       ∧ Artist.name db_item = Artist.name (from_db_row sample_row)
       ∧ Artist.sort_name db_item = Artist.sort_name (from_db_row sample_row)).
Proof.
  apply (update_db_item_provider_ids sample_state "1" incoming_artist
           (from_db_row sample_row)).
  reflexivity.
Defined.

(** C5 as stated fails: a merge update stores the incoming
    [musicbrainz_id] over a different one the record already has. *)
Lemma merge_keeps_musicbrainz_id_counterexample :
  ¬ (∀ (st : State) (item_id : string) (item cur db_item : Artist.t) st',
       get_db_item item_id st = inr (Some cur, st) →
       is_Some (Artist.musicbrainz_id cur) →
       update_db_item item_id item false st = inr (db_item, st') →
       Artist.musicbrainz_id db_item = Artist.musicbrainz_id cur).
Proof.
  intros Hclaim.
  pose proof (update_db_item_run "1" incoming_artist false sample_state
                sample_row eq_refl) as Hrun.
  specialize (Hclaim sample_state "1" incoming_artist (from_db_row sample_row)
                _ _ eq_refl (mk_is_Some _ _ eq_refl) Hrun).
  discriminate Hclaim.
Qed.

(** C5 (amended).  In a merge update ([overwrite=False]) the stored
    [musicbrainz_id] is the incoming item's whenever the incoming item has a
    (non-empty) one, also when the existing record already has one; the
    existing value is kept only when the incoming item has none. *)
Theorem merge_musicbrainz_id (st : State) (item_id : string)
    (item cur : Artist.t) :
  get_db_item item_id st = inr (Some cur, st) →
  ∃ db_item st',
    update_db_item item_id item false st = inr (db_item, st')
    ∧ get_db_item item_id st' = inr (Some db_item, st')
    ∧ Artist.musicbrainz_id db_item
      = if truthy (Artist.musicbrainz_id item)
        then Artist.musicbrainz_id item
        else Artist.musicbrainz_id cur.
Proof.
  intros (row & Hrow & ->)%get_db_item_Some.
  eexists _, _. split; [by apply update_db_item_run|].
  split; [by apply update_db_item_stored|]. done.
Qed.

Lemma merge_musicbrainz_id_witness :
  ∃ db_item st',
    update_db_item "1" incoming_artist false sample_state = inr (db_item, st')
    ∧ get_db_item "1" st' = inr (Some db_item, st')
    ∧ Artist.musicbrainz_id db_item = Some "mbid-incoming".
Proof.
  apply (merge_musicbrainz_id sample_state "1" incoming_artist
           (from_db_row sample_row)).
  reflexivity.
Defined.

Lemma metadata_update_lookup (cur incoming : Metadata) (k : string) :
  metadata_update cur incoming !! k
  = match incoming !! k with
    | Some v => Some v
    | None => cur !! k
    end.
Proof.
  unfold metadata_update. rewrite lookup_union.
  by destruct (incoming !! k), (cur !! k).
Qed.

(** C6.  In a merge update ([overwrite=False]) the stored metadata is the
    key-by-key merge of the existing record's metadata with the incoming
    item's: on a key both have the incoming value is stored, a key only the
    existing record has keeps its value. *)
Theorem merge_metadata (st : State) (item_id : string) (item cur : Artist.t) :
  get_db_item item_id st = inr (Some cur, st) →
  ∃ db_item st',
    update_db_item item_id item false st = inr (db_item, st')
    ∧ get_db_item item_id st' = inr (Some db_item, st')
    ∧ ∀ k, Artist.metadata db_item !! k
           = match Artist.metadata item !! k with
             | Some v => Some v
             | None => Artist.metadata cur !! k
             end.
Proof.
  intros (row & Hrow & ->)%get_db_item_Some.
  eexists _, _. split; [by apply update_db_item_run|].
  split; [by apply update_db_item_stored|].
  intros k. apply metadata_update_lookup.
Qed.

Lemma merge_metadata_witness :
  ∃ db_item st',
    update_db_item "1" incoming_artist false sample_state = inr (db_item, st')
    ∧ get_db_item "1" st' = inr (Some db_item, st')
    ∧ ∀ k, Artist.metadata db_item !! k
           = match Artist.metadata incoming_artist !! k with
             | Some v => Some v
             | None => Artist.metadata (from_db_row sample_row) !! k
             end.
Proof.
  apply (merge_metadata sample_state "1" incoming_artist
           (from_db_row sample_row)).
  reflexivity.
Defined.

(** *** Insert or merge *)

Lemma first_some_fmap_find {A B} (P : A → bool) (g : A → B) (l : list A) :
  first_some (fun x => if P x then Some (g x) else None) l
  = g <$> List.find P l.
Proof.
  induction l as [|x l IH]; [done|]. cbn [first_some List.find].
  by destruct (P x).
Qed.

Lemma find_filter_same {A} (P : A → bool) (l : list A) :
  List.find P (List.filter P l) = List.find P l.
Proof.
  induction l as [|x l IH]; [done|]. cbn [List.filter List.find].
  destruct (P x) eqn:Hx; [|done]. cbn [List.find]. by rewrite Hx.
Qed.

(** The name fallback of [add_db_item]: the first row with the [sort_name]
    of the item. *)
Lemma sort_name_fallback item rows :
  first_some
    (fun row =>
       if decide (Artist.sort_name (from_db_row row) = Artist.sort_name item)
       then Some (CurArtist (from_db_row row))
       else None)
    (List.filter
       (fun row => bool_decide (row_sort_name row = Artist.sort_name item))
       rows)
  = (fun row => CurArtist (from_db_row row)) <$> row_by_sort_name item rows.
Proof.
  unfold row_by_sort_name.
  rewrite <- find_filter_same, <- first_some_fmap_find.
  induction (List.filter _ rows) as [|row l IH]; [done|].
  cbn [first_some]. rewrite IH. cbn [from_db_row Artist.sort_name].
  by destruct (decide _); [rewrite bool_decide_eq_true_2
                          |rewrite bool_decide_eq_false_2].
Qed.

Lemma fresh_item_id_above rows row :
  row ∈ rows → (row_item_id row < fresh_item_id rows)%N.
Proof.
  unfold fresh_item_id. induction rows as [|r rows IH].
  - by intros ?%elem_of_nil.
  - rewrite fmap_cons. cbn [fold_right].
    intros [-> | Hin]%elem_of_cons; [lia|]. specialize (IH Hin). lia.
Qed.

Lemma find_inserted_row rows (mk_row : N → ArtistRow) :
  row_item_id (mk_row (fresh_item_id rows)) = fresh_item_id rows →
  List.find (has_item_id (pretty (fresh_item_id rows)))
            (rows ++ [mk_row (fresh_item_id rows)])
  = Some (mk_row (fresh_item_id rows)).
Proof.
  intros Hid.
  assert (∀ l, (∀ row, row ∈ l → (row_item_id row < fresh_item_id rows)%N) →
    List.find (has_item_id (pretty (fresh_item_id rows)))
              (l ++ [mk_row (fresh_item_id rows)])
    = Some (mk_row (fresh_item_id rows))) as Hgen.
  { induction l as [|r l IH]; intros Hl.
    - cbn. unfold has_item_id. by rewrite Hid, bool_decide_eq_true_2.
    - cbn [app List.find]. unfold has_item_id at 1.
      rewrite bool_decide_eq_false_2.
      + apply IH. intros row Hrow. apply Hl, elem_of_cons. by right.
      + intros Heq%(inj pretty).
        pose proof (Hl r ltac:(apply elem_of_cons; by left)). lia. }
  apply Hgen, fresh_item_id_above.
Qed.

Lemma add_db_item_cases item overwrite_existing st :
  Artist.provider_ids item ≠ ∅ →
  add_db_item item overwrite_existing st
  = match row_by_musicbrainz_id item (db st) with
    | Some row =>
        update_db_item (pretty (row_item_id row)) item overwrite_existing st
    | None =>
        match row_by_sort_name item (db st) with
        | Some row =>
            update_db_item (pretty (row_item_id row)) item overwrite_existing st
        | None =>
            inr (from_db_row (to_db_row item (fresh_item_id (db st))),
                 inserted_state item st)
        end
    end.
Proof.
  intros Hpids. unfold add_db_item, row_by_musicbrainz_id, assert.
  rewrite bool_decide_eq_true_2 by done.
  assert (
    (let new_item := to_db_row item (fresh_item_id (db st)) in
     match get_db_item (pretty (row_item_id new_item))
             {| db := db st ++ [new_item]; cache := cache st;
                tasks := tasks st; events := events st |} with
     | inl e => inl e
     | inr (db_item, st') =>
         (db_item <- not_none db_item ;;
          signal_event {| event_type := MEDIA_ITEM_ADDED;
                          event_data := db_item |} ;;;
          ret db_item) st'
     end)
    = inr (from_db_row (to_db_row item (fresh_item_id (db st))),
           inserted_state item st)) as Hinsert.
  { cbv zeta. rewrite get_db_item_run. cbn [db row_item_id to_db_row].
    by rewrite (find_inserted_row (db st) (to_db_row item)). }
  destruct (truthy (Artist.musicbrainz_id item)).
  - run_M. destruct (List.find _ (db st)) as [row|];
      cbn [fmap option_fmap option_map]; [done|].
    cbv zeta. rewrite sort_name_fallback.
    destruct (row_by_sort_name item (db st)) as [row|];
      cbn [fmap option_fmap option_map]; [done|].
    exact Hinsert.
  - run_M. cbv zeta. rewrite sort_name_fallback.
    destruct (row_by_sort_name item (db st)) as [row|];
      cbn [fmap option_fmap option_map]; [done|].
    exact Hinsert.
Qed.

Lemma find_Some_elem {A} (P : A → bool) (l : list A) x :
  List.find P l = Some x → x ∈ l.
Proof. intros [Hin _]%find_some. by apply list_elem_of_In. Qed.

(** [item_id] is the primary key: the row found under the [item_id] of a
    stored row is that row. *)
Lemma find_by_own_item_id rows row :
  NoDup (row_item_id <$> rows) → row ∈ rows →
  List.find (has_item_id (pretty (row_item_id row))) rows = Some row.
Proof.
  induction rows as [|r rows IH]; [by intros _ ?%elem_of_nil|].
  rewrite fmap_cons. intros [Hr Hnd]%NoDup_cons Hin. cbn [List.find].
  apply elem_of_cons in Hin as [-> | Hin].
  - unfold has_item_id. by rewrite bool_decide_eq_true_2.
  - unfold has_item_id at 1. rewrite bool_decide_eq_false_2; [by apply IH|].
    intros Heq%(inj pretty). apply Hr. rewrite Heq.
    by apply list_elem_of_fmap_2.
Qed.

Lemma provider_ids_singleton_nonempty (x : MediaItemProviderId.t) :
  ({[ x ]} : ProviderIds) ≠ ∅.
Proof. apply non_empty_singleton_L. Qed.

(** C2.  Adding an item ([add_db_item] as [add] calls it, without
    overwriting): if its [musicbrainz_id] is the one of an existing record,
    the item is merged into that record with [overwrite=False], whatever its
    [sort_name]; without [musicbrainz_id], or without a record under it, the
    item is merged into the first record with exactly its [sort_name]; only
    when neither lookup finds a record a new record is inserted and the
    creation event is signalled. *)
Theorem add_db_item_insert_or_merge (st : State) (item : Artist.t) :
  Artist.provider_ids item ≠ ∅ →
  NoDup (row_item_id <$> db st) →
  match row_by_musicbrainz_id item (db st) with
  | Some row =>
      add_db_item item false st
      = update_db_item (pretty (row_item_id row)) item false st
      ∧ add_db_item item false st
        = inr (from_db_row (written_row item false row row),
               updated_state (pretty (row_item_id row)) item false row st)
  | None =>
      match row_by_sort_name item (db st) with
      | Some row =>
          add_db_item item false st
          = update_db_item (pretty (row_item_id row)) item false st
          ∧ add_db_item item false st
            = inr (from_db_row (written_row item false row row),
                   updated_state (pretty (row_item_id row)) item false row st)
      | None =>
          add_db_item item false st
          = inr (from_db_row (to_db_row item (fresh_item_id (db st))),
                 inserted_state item st)
      end
  end.
Proof.
  intros Hpids Hkey. rewrite (add_db_item_cases _ _ _ Hpids).
  destruct (row_by_musicbrainz_id item (db st)) as [row|] eqn:Hmbid.
  - split; [done|]. apply update_db_item_run, find_by_own_item_id; [done|].
    unfold row_by_musicbrainz_id in Hmbid.
    destruct (truthy _); [|done]. by apply find_Some_elem in Hmbid.
  - destruct (row_by_sort_name item (db st)) as [row|] eqn:Hname; [|done].
    split; [done|]. apply update_db_item_run, find_by_own_item_id; [done|].
    by apply find_Some_elem in Hname.
Qed.

Lemma add_db_item_insert_or_merge_witness :
  Artist.sort_name enriched_artist ≠ row_sort_name sample_row
  ∧ add_db_item enriched_artist false sample_state
    = update_db_item "1" enriched_artist false sample_state
  ∧ add_db_item enriched_artist false sample_state
    = inr (from_db_row (written_row enriched_artist false sample_row sample_row),
           updated_state "1" enriched_artist false sample_row sample_state).
Proof.
  split; [discriminate|].
  apply (add_db_item_insert_or_merge sample_state enriched_artist).
  - exact (provider_ids_singleton_nonempty _).
  - apply NoDup_singleton.
Defined.

(** The other two outcomes on the sample database. *)
Example add_db_item_by_sort_name :
  add_db_item namesake_artist false sample_state
  = update_db_item "1" namesake_artist false sample_state.
Proof. reflexivity. Qed.

Example add_db_item_inserts :
  add_db_item unknown_artist false sample_state
  = inr (from_db_row (to_db_row unknown_artist 2),
         {| db := [sample_row; to_db_row unknown_artist 2];
            cache := ∅; tasks := [];
            events := [ {| event_type := MEDIA_ITEM_ADDED;
                           event_data :=
                             from_db_row (to_db_row unknown_artist 2) |} ] |}).
Proof. reflexivity. Qed.

(** ** Matching *)

Lemma first_some_None {A B} (body : A → option B) l :
  first_some body l = None ↔ ∀ x, x ∈ l → body x = None.
Proof.
  induction l as [|x l IH]; cbn [first_some].
  - split; [by intros _ ? ?%elem_of_nil | done].
  - destruct (body x) as [y|] eqn:Hx.
    + split; [done|]. intros Hall.
      specialize (Hall x ltac:(apply elem_of_cons; by left)). congruence.
    + rewrite IH. split.
      * intros Hall x' [-> | Hin]%elem_of_cons; auto.
      * intros Hall x' Hin. apply Hall, elem_of_cons. by right.
Qed.

Lemma first_some_Some {A B} (body : A → option B) l y :
  first_some body l = Some y → ∃ x, x ∈ l ∧ body x = Some y.
Proof.
  induction l as [|x l IH]; cbn [first_some]; [done|].
  destruct (body x) as [y'|] eqn:Hx.
  - intros [= ->]. exists x. split; [apply elem_of_cons; by left | done].
  - intros (x' & Hin & Hx')%IH. exists x'.
    split; [apply elem_of_cons; by right | done].
Qed.

Lemma first_some_is_Some {A B} (body : A → option B) l x :
  x ∈ l → is_Some (body x) → is_Some (first_some body l).
Proof.
  intros Hin Hx. destruct (first_some body l) eqn:Hnone; [done|].
  rewrite first_some_None in Hnone. rewrite (Hnone x Hin) in Hx.
  by destruct Hx.
Qed.

Section match_facts.
Context (mass : Mass) (db_artist : Artist.t) (provider : MusicProvider.t).

Lemma match_track_result_Some ref_track search_result_item a :
  match_track_result db_artist ref_track search_result_item = Some a →
  track_confirms db_artist ref_track search_result_item a.
Proof.
  unfold match_track_result, track_confirms.
  destruct (decide (_ ≠ _)) as [|Hsort%dec_stable]; [done|].
  intros (a' & Hin & Ha')%first_some_Some.
  destruct (decide (_ ≠ _)) as [|Hartist%dec_stable]; [done|].
  by simplify_eq.
Qed.

Lemma match_track_result_confirms ref_track search_result_item a :
  track_confirms db_artist ref_track search_result_item a →
  is_Some (match_track_result db_artist ref_track search_result_item).
Proof.
  unfold match_track_result. intros (Hsort & Hin & Hartist).
  rewrite decide_False by (by intros ?).
  apply (first_some_is_Some _ _ a Hin).
  by rewrite decide_False by (by intros ?).
Qed.

Lemma match_album_result_Some ref_album ref_album_artist search_result_item a :
  match_album_result ref_album ref_album_artist search_result_item = Some a
  ↔ Album.artist search_result_item = Some a
    ∧ Album.sort_name search_result_item = Album.sort_name ref_album
    ∧ Artist.sort_name a = Artist.sort_name ref_album_artist.
Proof.
  unfold match_album_result.
  destruct (Album.artist search_result_item) as [artist|]; [|naive_solver].
  destruct (decide (Album.sort_name _ ≠ _)) as [|Hsort%dec_stable];
    [naive_solver|].
  destruct (decide (Artist.sort_name _ ≠ _)) as [|Hartist%dec_stable];
    naive_solver.
Qed.

(** The track phase returns an artist only from a confirming search result,
    and returns one whenever there is a confirming search result. *)
Lemma track_phase_Some ref_tracks a :
  track_phase mass db_artist provider ref_tracks = Some a →
  track_phase_confirmation mass db_artist provider ref_tracks a.
Proof.
  unfold track_phase, track_phase_confirmation.
  intros (ref_track & Href & Hmatch)%first_some_Some.
  unfold match_ref_track in Hmatch.
  apply first_some_Some in Hmatch as (search_str & Hstr & Hmatch).
  apply first_some_Some in Hmatch as (item & Hitem & Hmatch).
  exists ref_track, search_str, item.
  split_and!; [done..|]. by apply match_track_result_Some.
Qed.


Lemma track_phase_confirmed ref_tracks a :
  track_phase_confirmation mass db_artist provider ref_tracks a →
  is_Some (track_phase mass db_artist provider ref_tracks).
Proof.
  intros (ref_track & search_str & item & Href & Hstr & Hitem & Hconfirms).
  unfold track_phase. apply (first_some_is_Some _ _ ref_track Href).
  unfold match_ref_track. apply (first_some_is_Some _ _ search_str Hstr).
  apply (first_some_is_Some _ _ item Hitem).
  by eapply match_track_result_confirms.
Qed.

Lemma album_phase_Some artist_albums a :
  album_phase mass db_artist provider artist_albums = Some a →
  album_phase_confirmation mass db_artist provider artist_albums a.
Proof.
  unfold album_phase, album_phase_confirmation.
  intros (ref_album & Href & Hmatch)%first_some_Some.
  unfold match_ref_album in Hmatch.
  destruct (decide (Album.album_type ref_album = COMPILATION)); [done|].
  destruct (Album.artist ref_album) as [ref_album_artist|] eqn:Hartist; [|done].
  apply first_some_Some in Hmatch as (search_str & Hstr & Hmatch).
  apply first_some_Some in Hmatch as (item & Hitem & Hmatch).
  apply match_album_result_Some in Hmatch as (? & ? & ?).
  exists ref_album, search_str, item. split_and!; [done..|].
  unfold album_confirms. eauto.
Qed.


Lemma album_phase_confirmed artist_albums a :
  album_phase_confirmation mass db_artist provider artist_albums a →
  is_Some (album_phase mass db_artist provider artist_albums).
Proof.
  intros (ref_album & search_str & item & Href & Htype & Hstr & Hitem
          & Hartist & Hsort & ref_album_artist & Hrefartist & Hname).
  unfold album_phase. apply (first_some_is_Some _ _ ref_album Href).
  unfold match_ref_album. rewrite decide_False by done. rewrite Hrefartist.
  apply (first_some_is_Some _ _ search_str Hstr).
  apply (first_some_is_Some _ _ item Hitem).
  exists a. by apply match_album_result_Some.
Qed.

End match_facts.

(** *** The listings leave the artists table alone *)

Lemma leaves_records_ret {A} (x : A) : leaves_records (ret x).
Proof. by intros st y st' [= _ ->]. Qed.

Lemma leaves_records_raise {A} e : leaves_records (raise (A:=A) e).
Proof. by intros st y st'. Qed.

Lemma leaves_records_bind {A B} (m : M A) (k : A → M B) :
  leaves_records m → (∀ x, leaves_records (k x)) → leaves_records (bind m k).
Proof.
  intros Hm Hk st y st'. unfold bind.
  destruct (m st) as [e|[x st1]] eqn:Hrun; [done|].
  intros Hrun'. destruct (Hm _ _ _ Hrun) as [<- <-].
  exact (Hk x _ _ _ Hrun').
Qed.

Lemma leaves_records_get_db_item item_id : leaves_records (get_db_item item_id).
Proof. intros st x st'. rewrite get_db_item_run. by intros [= _ ->]. Qed.

Lemma leaves_records_cache_get cache_key : leaves_records (cache_get cache_key).
Proof. by intros st x st' [= _ <-]. Qed.

Lemma leaves_records_create_task t : leaves_records (create_task t).
Proof. by intros st x st' [= _ <-]. Qed.

Lemma leaves_records_gather {A} (coros : list (M A)) :
  (∀ c, c ∈ coros → leaves_records c) → leaves_records (gather coros).
Proof.
  induction coros as [|c coros IH]; intros Hall; cbn [gather].
  - apply leaves_records_ret.
  - apply leaves_records_bind; [apply Hall, elem_of_cons; by left|].
    intros x. apply leaves_records_bind; [|intros; apply leaves_records_ret].
    apply IH. intros c' Hc'. apply Hall, elem_of_cons. by right.
Qed.

Section listing_facts.
Context (mass : Mass).

Lemma leaves_records_get item_id provider :
  leaves_records (get mass item_id provider).
Proof.
  unfold get. case_decide; [|apply leaves_records_ret].
  apply leaves_records_bind; [apply leaves_records_get_db_item|].
  intros [artist|]; [apply leaves_records_ret | apply leaves_records_raise].
Qed.

Lemma leaves_records_provider_toptracks item_id provider_id :
  leaves_records (get_provider_artist_toptracks mass item_id provider_id).
Proof.
  unfold get_provider_artist_toptracks.
  destruct (get_provider mass provider_id) as [prov|];
    [|apply leaves_records_ret].
  apply leaves_records_bind; [apply leaves_records_cache_get|].
  intros [[[|??]|[|??]]|];
    try apply leaves_records_ret; try apply leaves_records_raise;
    (apply leaves_records_bind;
       [apply leaves_records_create_task | intros; apply leaves_records_ret]).
Qed.

Lemma leaves_records_provider_albums item_id provider_id :
  leaves_records (get_provider_artist_albums mass item_id provider_id).
Proof.
  unfold get_provider_artist_albums.
  destruct (get_provider mass provider_id) as [prov|];
    [|apply leaves_records_ret].
  apply leaves_records_bind; [apply leaves_records_cache_get|].
  intros [[[|??]|[|??]]|];
    try apply leaves_records_ret; try apply leaves_records_raise;
    (apply leaves_records_bind;
       [apply leaves_records_create_task | intros; apply leaves_records_ret]).
Qed.

Lemma leaves_records_toptracks item_id provider :
  leaves_records (toptracks mass item_id provider).
Proof.
  unfold toptracks.
  apply leaves_records_bind; [apply leaves_records_get|]. intros artist.
  apply leaves_records_bind; [|intros; apply leaves_records_ret].
  apply leaves_records_gather.
  intros c (item & -> & _)%list_elem_of_fmap.
  apply leaves_records_provider_toptracks.
Qed.

Lemma leaves_records_albums item_id provider :
  leaves_records (albums mass item_id provider).
Proof.
  unfold albums.
  apply leaves_records_bind; [apply leaves_records_get|]. intros artist.
  apply leaves_records_bind; [|intros; apply leaves_records_ret].
  apply leaves_records_gather.
  intros c (item & -> & _)%list_elem_of_fmap.
  apply leaves_records_provider_albums.
Qed.

End listing_facts.

(** *** [_match] *)

Lemma match_run_no_match mass db_artist provider st ref_tracks st1
    artist_albums st2 :
  toptracks mass (Artist.item_id db_artist) (Artist.provider db_artist) st
  = inr (ref_tracks, st1) →
  track_phase mass db_artist provider ref_tracks = None →
  albums mass (Artist.item_id db_artist) (Artist.provider db_artist) st1
  = inr (artist_albums, st2) →
  album_phase mass db_artist provider artist_albums = None →
  _match mass db_artist provider st = inr (false, st2).
Proof.
  intros Htop Htracks Halbums Hphase.
  unfold _match, bind at 1. rewrite Htop, Htracks.
  unfold bind at 1. by rewrite Halbums, Hphase.
Qed.

Lemma match_run_album_match mass db_artist provider st ref_tracks st1
    artist_albums st2 artist cur :
  toptracks mass (Artist.item_id db_artist) (Artist.provider db_artist) st
  = inr (ref_tracks, st1) →
  track_phase mass db_artist provider ref_tracks = None →
  albums mass (Artist.item_id db_artist) (Artist.provider db_artist) st1
  = inr (artist_albums, st2) →
  album_phase mass db_artist provider artist_albums = Some artist →
  List.find (has_item_id (Artist.item_id db_artist)) (db st) = Some cur →
  _match mass db_artist provider st
  = inr (true,
         updated_state (Artist.item_id db_artist)
           (get_provider_item mass (Artist.item_id artist)
                              (Artist.provider artist))
           false cur st2).
Proof.
  intros Htop Htracks Halbums Hphase Hcur.
  destruct (leaves_records_toptracks _ _ _ _ _ _ Htop) as [Hdb1 _].
  destruct (leaves_records_albums _ _ _ _ _ _ Halbums) as [Hdb2 _].
  unfold _match, bind at 1. rewrite Htop, Htracks.
  unfold bind at 1. rewrite Halbums, Hphase.
  unfold bind at 1. erewrite update_db_item_run; [done|].
  by rewrite Hdb2, Hdb1.
Qed.







(** * Further properties *)

(** ** The output of a merge-by-key loop *)

Lemma dict_set_fresh {V} k (v : V) d :
  dict_get k d = None → dict_set k v d = d ++ [(k, v)].
Proof.
  induction d as [|[k0 v0] d IH]; cbn [dict_get dict_set app]; [done|].
  case_decide; [done|]. intros Hnone. by rewrite IH.
Qed.

Lemma filter_all {A} (P : A → Prop) `{!∀ x, Decision (P x)} (l : list A) :
  (∀ x, P x) → filter P l = l.
Proof.
  intros HP. induction l as [|x l IH]; [done|].
  by rewrite filter_cons_True, IH.
Qed.

Lemma first_occurrences_elem ks k :
  k ∈ first_occurrences ks ↔ k ∈ ks.
Proof.
  induction ks as [|k0 ks IH]; cbn [first_occurrences]; [done|].
  rewrite !elem_of_cons, list_elem_of_filter, IH.
  destruct (decide (k = k0)); naive_solver.
Qed.

Lemma first_occurrences_NoDup ks : NoDup (first_occurrences ks).
Proof.
  induction ks as [|k0 ks IH]; cbn [first_occurrences]; [apply NoDup_nil_2|].
  apply NoDup_cons. split.
  - rewrite list_elem_of_filter. naive_solver.
  - by apply NoDup_filter.
Qed.

Lemma fold_note_key ks acc :
  fold_left note_key ks acc
  = acc ++ filter (fun k => k ∉ acc) (first_occurrences ks).
Proof.
  revert acc. induction ks as [|k ks IH]; intros acc;
    cbn [fold_left first_occurrences].
  - by rewrite filter_nil, app_nil_r.
  - rewrite IH. unfold note_key. case_decide as Hk.
    + rewrite filter_cons_False by naive_solver.
      rewrite list_filter_filter. f_equal.
      apply list_filter_iff. intros k'. naive_solver.
    + rewrite filter_cons_True by done.
      rewrite list_filter_filter, <- app_assoc. cbn [app]. do 2 f_equal.
      apply list_filter_iff. intros k'.
      rewrite not_elem_of_app, list_elem_of_singleton. naive_solver.
Qed.

Section merge_output_facts.
Context {V : Type} (key : V → string) (join : V → V → V).
Implicit Types (d : pydict V) (v : V) (l : list V).

Hypothesis join_key : ∀ cur v, key (join cur v) = key cur.

Lemma keyed_values_keys d : keyed key d → key <$> dict_values d = dict_keys d.
Proof using Type.
  unfold dict_values, dict_keys.
  induction d as [|[k v] d IH]; intros Hd; [done|].
  rewrite !fmap_cons. cbn [fst snd]. f_equal.
  - apply Hd, elem_of_cons. by left.
  - apply IH. intros ?? Hin. apply Hd, elem_of_cons. by right.
Qed.

Lemma upsert_keys d v :
  dict_keys (upsert key join d v) = note_key (dict_keys d) (key v).
Proof using Type.
  unfold upsert, note_key.
  destruct (dict_get (key v) d) as [cur|] eqn:Hget; rewrite dict_keys_set.
  - rewrite (proj2 (dict_mem_true _ _)) by eauto.
    rewrite decide_True; [done|].
    destruct (decide (key v ∈ dict_keys d)) as [|Hnot]; [done|].
    apply dict_get_None_keys in Hnot. congruence.
  - rewrite (proj2 (dict_mem_false _ _)) by done.
    rewrite decide_False; [done|]. by apply dict_get_None_keys.
Qed.

Lemma fold_upsert_keys l d :
  dict_keys (fold_left (upsert key join) l d)
  = fold_left note_key (key <$> l) (dict_keys d).
Proof using Type.
  revert d. induction l as [|v l IH]; intros d; [done|].
  rewrite fmap_cons. cbn [fold_left]. by rewrite IH, upsert_keys.
Qed.

(** The keys of the returned list: those of the listing, each once, in the
    order they are first seen. *)
Lemma merge_keys l :
  key <$> dict_values (fold_left (upsert key join) l [])
  = first_occurrences (key <$> l).
Proof using join_key.
  rewrite keyed_values_keys.
  - rewrite fold_upsert_keys, fold_note_key. cbn [dict_keys fmap list_fmap app].
    apply filter_all. intros k. apply not_elem_of_nil.
  - apply fold_upsert_keyed; [done|]. intros ?? Hin. by apply elem_of_nil in Hin.
Qed.

Lemma fold_upsert_distinct l d :
  NoDup (dict_keys d ++ (key <$> l)) →
  fold_left (upsert key join) l d = d ++ ((fun v => (key v, v)) <$> l).
Proof using Type.
  revert d. induction l as [|v l IH]; intros d Hnd.
  - by rewrite app_nil_r.
  - rewrite fmap_cons in Hnd. cbn [fold_left].
    assert (dict_get (key v) d = None) as Hfresh.
    { apply dict_get_None_keys. apply NoDup_app in Hnd as (_ & Hdisj & _).
      intros Hin. apply (Hdisj _ Hin), elem_of_cons. by left. }
    unfold upsert at 2. rewrite Hfresh, (dict_set_fresh _ _ _ Hfresh).
    rewrite IH.
    + by rewrite <- app_assoc, fmap_cons.
    + unfold dict_keys. rewrite fmap_app. cbn [fmap list_fmap fst].
      rewrite <- app_assoc. done.
Qed.

(** A listing without colliding keys is returned as it is. *)
Lemma merge_distinct l :
  NoDup (key <$> l) → dict_values (fold_left (upsert key join) l []) = l.
Proof using Type.
  intros Hnd. rewrite fold_upsert_distinct by done.
  unfold dict_values. cbn [app]. rewrite <- list_fmap_compose.
  apply list_fmap_id.
Qed.

End merge_output_facts.

Lemma toptracks_merge_upsert tracks :
  toptracks_merge tracks
  = dict_values (fold_left (upsert track_key track_join) tracks []).
Proof.
  unfold toptracks_merge.
  by rewrite (fold_left_ext _ _ _ _ toptracks_step_upsert).
Qed.

Lemma albums_merge_upsert albums :
  albums_merge albums
  = dict_values (fold_left (upsert album_key album_join) albums []).
Proof.
  unfold albums_merge.
  by rewrite (fold_left_ext _ _ _ _ albums_step_upsert).
Qed.

(** X1.  The list [toptracks] and [albums] return has one entry per merge
    key of the listing, in the order in which the keys are first seen. *)
Theorem merge_output_first_seen_order :
  (∀ tracks : list Track.t,
     track_key <$> toptracks_merge tracks
     = first_occurrences (track_key <$> tracks)
     ∧ NoDup (track_key <$> toptracks_merge tracks))
  ∧ (∀ albums : list Album.t,
       album_key <$> albums_merge albums
       = first_occurrences (album_key <$> albums)
       ∧ NoDup (album_key <$> albums_merge albums)).
Proof.
  split.
  - intros tracks.
    assert (track_key <$> toptracks_merge tracks
            = first_occurrences (track_key <$> tracks)) as Hkeys.
    { rewrite toptracks_merge_upsert. apply merge_keys, track_join_key. }
    split; [done|]. rewrite Hkeys. apply first_occurrences_NoDup.
  - intros albums.
    assert (album_key <$> albums_merge albums
            = first_occurrences (album_key <$> albums)) as Hkeys.
    { rewrite albums_merge_upsert. apply merge_keys, album_join_key. }
    split; [done|]. rewrite Hkeys. apply first_occurrences_NoDup.
Qed.

(** X2.  A listing in which no two results share a merge key is returned
    unchanged, and merging a merged listing again changes nothing. *)
Theorem merge_distinct_and_idempotent :
  (∀ tracks : list Track.t,
     NoDup (track_key <$> tracks) → toptracks_merge tracks = tracks)
  ∧ (∀ tracks : list Track.t,
       toptracks_merge (toptracks_merge tracks) = toptracks_merge tracks)
  ∧ (∀ albums : list Album.t,
       NoDup (album_key <$> albums) → albums_merge albums = albums)
  ∧ (∀ albums : list Album.t,
       albums_merge (albums_merge albums) = albums_merge albums).
Proof.
  assert (∀ tracks : list Track.t,
            NoDup (track_key <$> tracks) → toptracks_merge tracks = tracks)
    as Htracks.
  { intros tracks Hnd. rewrite toptracks_merge_upsert. by apply merge_distinct. }
  assert (∀ albums : list Album.t,
            NoDup (album_key <$> albums) → albums_merge albums = albums)
    as Halbums.
  { intros albums Hnd. rewrite albums_merge_upsert. by apply merge_distinct. }
  split_and!; [done| |done|].
  - intros tracks. apply Htracks.
    rewrite toptracks_merge_upsert, (merge_keys _ _ track_join_key).
    apply first_occurrences_NoDup.
  - intros albums. apply Halbums.
    rewrite albums_merge_upsert, (merge_keys _ _ album_join_key).
    apply first_occurrences_NoDup.
Qed.

Lemma merge_distinct_and_idempotent_witness :
  toptracks_merge [sample_track_spotify; renamed_track_qobuz]
  = [sample_track_spotify; renamed_track_qobuz]
  ∧ albums_merge [sample_album_spotify; renamed_album_qobuz]
    = [sample_album_spotify; renamed_album_qobuz].
Proof.
  destruct merge_distinct_and_idempotent as (Htracks & _ & Halbums & _).
  split.
  - apply Htracks. refine (bool_decide_unpack (NoDup _) _). reflexivity.
  - apply Halbums. refine (bool_decide_unpack (NoDup _) _). reflexivity.
Defined.

Section merge_conservation.
Context {V : Type} (key : V → string) (pids : V → ProviderIds).
Context (join : V → V → V) (merge : list V → list V).

Hypothesis merge_groups :
  ∀ k l, with_key key k (merge l)
         = option_list (merged join (with_key key k l)).
Hypothesis join_pids :
  ∀ later first,
    pids (fold_left join later first) = pids first ∪ ⋃ (pids <$> later).

Lemma merge_conserves_pids (l : list V) :
  ⋃ (pids <$> merge l) = ⋃ (pids <$> l).
Proof using merge_groups join_pids.
  apply set_eq. intros x. rewrite !elem_of_union_list. split.
  - intros (X & (e & -> & He)%list_elem_of_fmap & Hx).
    assert (e ∈ with_key key (key e) (merge l)) as Hgroup
      by (by apply list_elem_of_filter).
    rewrite merge_groups in Hgroup. unfold merged in Hgroup.
    destruct (with_key key (key e) l) as [|first later] eqn:Hl;
      [by apply elem_of_nil in Hgroup|].
    apply list_elem_of_singleton in Hgroup as ->.
    rewrite join_pids in Hx.
    assert (x ∈ ⋃ (pids <$> with_key key (key (fold_left join later first)) l))
      as Hin by (by rewrite Hl, fmap_cons).
    apply elem_of_group_pids in Hin as (c & Hc & _ & Hxc).
    exists (pids c). split; [by apply list_elem_of_fmap_2 | done].
  - intros (X & (c & -> & Hc)%list_elem_of_fmap & Hx).
    destruct (merged_entry key pids join merge merge_groups join_pids l c Hc)
      as (e & Hone & He).
    exists (pids e). split.
    + apply list_elem_of_fmap_2.
      assert (e ∈ with_key key (key c) (merge l)) as Hin
        by (rewrite Hone; apply list_elem_of_singleton; done).
      by apply list_elem_of_filter in Hin as [_ ?].
    + rewrite He. apply elem_of_group_pids. eauto.
Qed.

End merge_conservation.

(** X3.  Merging neither loses nor invents provenance: the provider
    mappings found in the output of [toptracks] or [albums] are exactly
    those found in the per-provider results. *)
Theorem merge_conserves_provider_ids :
  (∀ tracks : list Track.t,
     ⋃ (Track.provider_ids <$> toptracks_merge tracks)
     = ⋃ (Track.provider_ids <$> tracks))
  ∧ (∀ albums : list Album.t,
       ⋃ (Album.provider_ids <$> albums_merge albums)
       = ⋃ (Album.provider_ids <$> albums)).
Proof.
  split.
  - apply (merge_conserves_pids track_key _ track_join).
    + apply toptracks_merge_with_key.
    + intros later first. by rewrite fold_track_join.
  - apply (merge_conserves_pids album_key _ album_join).
    + apply albums_merge_with_key.
    + intros later first. by rewrite fold_album_join.
Qed.

Lemma string_app_assoc (s1 s2 s3 : string) :
  (s1 +:+ s2) +:+ s3 = s1 +:+ s2 +:+ s3.
Proof.
  induction s1 as [|c s1 IH]; [done|].
  change (String c ((s1 +:+ s2) +:+ s3) = String c (s1 +:+ s2 +:+ s3)).
  by rewrite IH.
Qed.

(** X4.  The merge key does not keep name and version apart: a result
    named [n.v] with version [w] has the key of a result named [n] with
    version [v.w], so two such results of a listing are merged into one
    entry although neither their names nor their versions agree. *)
Theorem merge_key_dot_ambiguity :
  (∀ (tracks : list Track.t) a b v,
     a ∈ tracks → b ∈ tracks →
     Track.name a = Track.name b +:+ "." +:+ v →
     Track.version b = v +:+ "." +:+ Track.version a →
     collision_merged track_key Track.provider_ids toptracks_merge tracks a b)
  ∧ (∀ (albums : list Album.t) a b v,
       a ∈ albums → b ∈ albums →
       Album.name a = Album.name b +:+ "." +:+ v →
       Album.version b = v +:+ "." +:+ Album.version a →
       collision_merged album_key Album.provider_ids albums_merge albums a b).
Proof.
  split.
  - intros tracks a b v Ha Hb Hname Hversion.
    apply toptracks_collision_merged; [done..|].
    unfold track_key. rewrite Hname, Hversion.
    by rewrite !string_app_assoc.
  - intros albums a b v Ha Hb Hname Hversion.
    apply albums_collision_merged; [done..|].
    unfold album_key. rewrite Hname, Hversion.
    by rewrite !string_app_assoc.
Qed.

Lemma merge_key_dot_ambiguity_witness :
  Track.name sample_track_dotted_name ≠ Track.name sample_track_dotted_version
  ∧ Track.version sample_track_dotted_name
    ≠ Track.version sample_track_dotted_version
  ∧ collision_merged track_key Track.provider_ids toptracks_merge
      [sample_track_dotted_version; sample_track_dotted_name]
      sample_track_dotted_name sample_track_dotted_version.
Proof.
  split; [discriminate|]. split; [discriminate|].
  apply (proj1 merge_key_dot_ambiguity
           [sample_track_dotted_version; sample_track_dotted_name]
           sample_track_dotted_name sample_track_dotted_version "1");
    [apply list_elem_of_In; simpl; tauto ..| reflexivity | reflexivity].
Defined.

(** ** The listings *)

(** X5.  Listing the top tracks or the albums of a canonical (database)
    record never writes to the artists table and signals no event: whenever
    [toptracks] or [albums] returns for a database item, every row of the
    table and the event log are as they were before the call. *)
Theorem listings_leave_records (mass : Mass) (item_id : string) :
  leaves_records (toptracks mass item_id DATABASE)
  ∧ leaves_records (albums mass item_id DATABASE).
Proof.
  split; [apply leaves_records_toptracks | apply leaves_records_albums].
Qed.

Lemma listings_leave_records_witness :
  (db sample_state_tracks_listed = db sample_state
   ∧ events sample_state_tracks_listed = events sample_state)
  ∧ (db sample_state_listed = db sample_state_tracks_listed
     ∧ events sample_state_listed = events sample_state_tracks_listed).
Proof.
  split.
  - apply (proj1 (listings_leave_records quiet_mass "1")
             sample_state [sample_track_spotify]).
    reflexivity.
  - apply (proj2 (listings_leave_records quiet_mass "1")
             sample_state_tracks_listed [guest_album_spotify]).
    reflexivity.
Defined.

Lemma provider_toptracks_miss mass item_id provider_id prov st :
  get_provider mass provider_id = Some prov →
  cache st !! (value (MusicProvider.type prov) +:+ ".artist_toptracks." +:+ item_id)
  = None →
  get_provider_artist_toptracks mass item_id provider_id st
  = inr (MusicProvider.get_artist_toptracks prov item_id,
         {| db := db st; cache := cache st;
            tasks := tasks st
                     ++ [ CacheSet (value (MusicProvider.type prov)
                                    +:+ ".artist_toptracks." +:+ item_id)
                            (CachedTracks
                               (MusicProvider.get_artist_toptracks prov item_id)) ];
            events := events st |}).
Proof.
  intros Hprov Hmiss. unfold get_provider_artist_toptracks. rewrite Hprov.
  cbv zeta. unfold bind at 1, cache_get, bind at 1. cbn [get_state ret].
  by rewrite Hmiss.
Qed.

Lemma provider_albums_miss mass item_id provider_id prov st :
  get_provider mass provider_id = Some prov →
  cache st !! (value (MusicProvider.type prov) +:+ ".artist_albums." +:+ item_id)
  = None →
  get_provider_artist_albums mass item_id provider_id st
  = inr (MusicProvider.get_artist_albums prov item_id,
         {| db := db st; cache := cache st;
            tasks := tasks st
                     ++ [ CacheSet (value (MusicProvider.type prov)
                                    +:+ ".artist_albums." +:+ item_id)
                            (CachedAlbums
                               (MusicProvider.get_artist_albums prov item_id)) ];
            events := events st |}).
Proof.
  intros Hprov Hmiss. unfold get_provider_artist_albums. rewrite Hprov.
  cbv zeta. unfold bind at 1, cache_get, bind at 1. cbn [get_state ret].
  by rewrite Hmiss.
Qed.

(** X6.  The cache key of a per-provider listing names the provider type and
    the item, not the provider instance.  When the listing of one instance
    missed the cache and its scheduled write has run, the same item id asked
    of another instance of that type is answered with the first instance's
    listing, and the second instance is not consulted. *)
Theorem cache_key_shared_by_provider_type (mass : Mass)
    (id1 id2 item_id : string) (p1 p2 : MusicProvider.t) (st : State) :
  get_provider mass id1 = Some p1 →
  get_provider mass id2 = Some p2 →
  MusicProvider.type p1 = MusicProvider.type p2 →
  (cache st !! (value (MusicProvider.type p1) +:+ ".artist_toptracks." +:+ item_id)
   = None →
   MusicProvider.get_artist_toptracks p1 item_id ≠ [] →
   ∃ st1 cache_key data,
     get_provider_artist_toptracks mass item_id id1 st
     = inr (MusicProvider.get_artist_toptracks p1 item_id, st1)
     ∧ tasks st1 = tasks st ++ [CacheSet cache_key data]
     ∧ get_provider_artist_toptracks mass item_id id2
         (cache_set cache_key data st1)
       = inr (MusicProvider.get_artist_toptracks p1 item_id,
              cache_set cache_key data st1))
  ∧ (cache st !! (value (MusicProvider.type p1) +:+ ".artist_albums." +:+ item_id)
     = None →
     MusicProvider.get_artist_albums p1 item_id ≠ [] →
     ∃ st1 cache_key data,
       get_provider_artist_albums mass item_id id1 st
       = inr (MusicProvider.get_artist_albums p1 item_id, st1)
       ∧ tasks st1 = tasks st ++ [CacheSet cache_key data]
       ∧ get_provider_artist_albums mass item_id id2
           (cache_set cache_key data st1)
         = inr (MusicProvider.get_artist_albums p1 item_id,
                cache_set cache_key data st1)).
Proof.
  intros Hp1 Hp2 Htype. split.
  - intros Hmiss Hitems. eexists _, _, _.
    split; [by apply provider_toptracks_miss|]. split; [done|].
    unfold get_provider_artist_toptracks. rewrite Hp2, <- Htype.
    cbv zeta. unfold bind at 1, cache_get, bind at 1. cbn [get_state ret].
    unfold cache_set at 1. cbn [cache]. rewrite lookup_insert_eq.
    by destruct (MusicProvider.get_artist_toptracks p1 item_id).
  - intros Hmiss Hitems. eexists _, _, _.
    split; [by apply provider_albums_miss|]. split; [done|].
    unfold get_provider_artist_albums. rewrite Hp2, <- Htype.
    cbv zeta. unfold bind at 1, cache_get, bind at 1. cbn [get_state ret].
    unfold cache_set at 1. cbn [cache]. rewrite lookup_insert_eq.
    by destruct (MusicProvider.get_artist_albums p1 item_id).
Qed.

Lemma cache_key_shared_by_provider_type_witness :
  MusicProvider.get_artist_toptracks spotify_provider_2 "sp-artist-1"
  ≠ MusicProvider.get_artist_toptracks spotify_provider "sp-artist-1"
  ∧ ∃ st1 cache_key data,
      get_provider_artist_toptracks twin_mass "sp-artist-1" "spotify_1"
        sample_state
      = inr ([sample_track_spotify], st1)
      ∧ tasks st1 = tasks sample_state ++ [CacheSet cache_key data]
      ∧ get_provider_artist_toptracks twin_mass "sp-artist-1" "spotify_2"
          (cache_set cache_key data st1)
        = inr ([sample_track_spotify], cache_set cache_key data st1).
Proof.
  split; [discriminate|].
  apply (proj1 (cache_key_shared_by_provider_type twin_mass
                  "spotify_1" "spotify_2" "sp-artist-1"
                  spotify_provider spotify_provider_2 sample_state
                  eq_refl eq_refl eq_refl)).
  - reflexivity.
  - discriminate.
Defined.

Lemma gather_unchanged {A} (coros : list (M A)) (f : M A → A) st :
  (∀ c, c ∈ coros → c st = inr (f c, st)) →
  gather coros st = inr (f <$> coros, st).
Proof.
  induction coros as [|c coros IH]; intros Hall; cbn [gather]; [done|].
  unfold bind at 1. rewrite (Hall c) by (apply elem_of_cons; by left).
  unfold bind at 1. rewrite IH; [done|].
  intros c' Hc'. apply Hall, elem_of_cons. by right.
Qed.

Lemma concat_all_nil {A B} (l : list B) :
  concat ((fun _ => @nil A) <$> l) = [].
Proof. induction l as [|x l IH]; [done|]. by rewrite fmap_cons. Qed.

(** X7.  A provider mapping whose provider instance is not registered
    contributes an empty listing, not an error: for a canonical record all
    of whose mappings name unknown instances, [toptracks] and [albums]
    return the empty list and leave the state as it is. *)
Theorem listings_of_unknown_providers (mass : Mass) (item_id : string)
    (row : ArtistRow) (st : State) :
  List.find (has_item_id item_id) (db st) = Some row →
  (∀ item, item ∈ row_provider_ids row →
           get_provider mass (MediaItemProviderId.prov_id item) = None) →
  toptracks mass item_id DATABASE st = inr ([], st)
  ∧ albums mass item_id DATABASE st = inr ([], st).
Proof.
  intros Hrow Hunknown. split.
  - unfold toptracks, bind at 1, get. rewrite decide_True by done.
    unfold bind at 1. rewrite get_db_item_run, Hrow.
    cbn [fmap option_fmap option_map ret]. cbv zeta.
    unfold bind at 1.
    rewrite (gather_unchanged _ (fun _ => [])).
    + cbn [ret]. by rewrite concat_all_nil.
    + intros c (item & -> & Hitem%elem_of_elements)%list_elem_of_fmap.
      unfold get_provider_artist_toptracks.
      by rewrite (Hunknown item Hitem).
  - unfold albums, bind at 1, get. rewrite decide_True by done.
    unfold bind at 1. rewrite get_db_item_run, Hrow.
    cbn [fmap option_fmap option_map ret]. cbv zeta.
    unfold bind at 1.
    rewrite (gather_unchanged _ (fun _ => [])).
    + cbn [ret]. by rewrite concat_all_nil.
    + intros c (item & -> & Hitem%elem_of_elements)%list_elem_of_fmap.
      unfold get_provider_artist_albums.
      by rewrite (Hunknown item Hitem).
Qed.

Lemma listings_of_unknown_providers_witness :
  toptracks offline_mass "1" DATABASE sample_state = inr ([], sample_state)
  ∧ albums offline_mass "1" DATABASE sample_state = inr ([], sample_state).
Proof.
  apply (listings_of_unknown_providers offline_mass "1" sample_row sample_state).
  - reflexivity.
  - intros item _. reflexivity.
Defined.

(** ** [update_db_item] *)

(** [update_db_item] returns only for an existing record. *)
Lemma update_db_item_missing item_id item overwrite st :
  List.find (has_item_id item_id) (db st) = None →
  update_db_item item_id item overwrite st = inl AttributeError.
Proof.
  intros Hnone. unfold update_db_item, bind at 1.
  rewrite get_db_item_run, Hnone. cbn [fmap option_fmap option_map].
  destruct overwrite; [|done].
  unfold bind at 1. cbn [ret]. cbv beta iota zeta.
  unfold bind at 1. cbn [ret]. unfold bind at 1. cbn [ret].
  destruct (truthy (Artist.musicbrainz_id item)); [|done].
  unfold bind at 1. cbn [ret]. unfold bind at 1.
  unfold database_update, bind at 1. cbn [get_state put_state].
  unfold bind at 1. rewrite get_db_item_run. cbn [db].
  by rewrite find_update_rows, Hnone.
Qed.

Lemma update_db_item_returns item_id item overwrite st x st' :
  update_db_item item_id item overwrite st = inr (x, st') →
  ∃ cur, List.find (has_item_id item_id) (db st) = Some cur
         ∧ x = from_db_row (written_row item overwrite cur cur)
         ∧ st' = updated_state item_id item overwrite cur st.
Proof.
  destruct (List.find (has_item_id item_id) (db st)) as [cur|] eqn:Hcur.
  - rewrite (update_db_item_run _ _ _ _ _ Hcur). intros [= <- <-]. eauto.
  - by rewrite (update_db_item_missing _ _ _ _ Hcur).
Qed.

(** X8.  Whenever [update_db_item] returns, it has touched nothing but the
    addressed record: the table has as many rows as before, every row keeps
    its [item_id] and its [in_library] flag, rows under another [item_id]
    are unchanged, cache and scheduled tasks are as before, exactly one
    [MEDIA_ITEM_UPDATED] event was signalled, carrying the returned record,
    and the returned record is what the table now holds under that id. *)
Theorem update_db_item_touches_one_record (item_id : string) (item : Artist.t)
    (overwrite : bool) (st st' : State) (x : Artist.t) :
  update_db_item item_id item overwrite st = inr (x, st') →
  length (db st') = length (db st)
  ∧ (∀ i row, db st !! i = Some row →
       ∃ row', db st' !! i = Some row'
               ∧ row_item_id row' = row_item_id row
               ∧ row_in_library row' = row_in_library row
               ∧ (has_item_id item_id row = false → row' = row))
  ∧ cache st' = cache st
  ∧ tasks st' = tasks st
  ∧ events st'
    = events st ++ [ {| event_type := MEDIA_ITEM_UPDATED; event_data := x |} ]
  ∧ get_db_item item_id st' = inr (Some x, st').
Proof.
  intros (cur & Hcur & -> & ->)%update_db_item_returns.
  split_and!; try done.
  - cbn [db updated_state]. by rewrite length_fmap.
  - intros i row Hrow. cbn [db updated_state].
    rewrite list_lookup_fmap, Hrow. cbn [fmap option_fmap option_map].
    eexists. split; [done|].
    destruct (has_item_id item_id row); by split_and!.
  - by apply update_db_item_stored.
Qed.

Lemma update_db_item_touches_one_record_witness :
  ∃ x st',
    update_db_item "1" incoming_artist false sample_state = inr (x, st')
    ∧ length (db st') = length (db sample_state)
    ∧ events st'
      = events sample_state
        ++ [ {| event_type := MEDIA_ITEM_UPDATED; event_data := x |} ].
Proof.
  eexists _, _. split; [reflexivity|].
  pose proof (update_db_item_touches_one_record "1" incoming_artist false
                sample_state _ _ eq_refl) as (Hlen & _ & _ & _ & Hev & _).
  split; [exact Hlen | exact Hev].
Defined.

Lemma metadata_update_idemp (cur incoming : Metadata) :
  metadata_update (metadata_update cur incoming) incoming
  = metadata_update cur incoming.
Proof.
  unfold metadata_update. by rewrite (assoc_L (∪)), (idemp_L (∪)).
Qed.

Lemma py_or_idemp x y : py_or x (py_or x y) = py_or x y.
Proof. unfold py_or. by destruct (truthy x). Qed.

Lemma written_row_idemp item overwrite cur row :
  written_row item overwrite (written_row item overwrite cur cur)
              (written_row item overwrite cur row)
  = written_row item overwrite cur row.
Proof.
  unfold written_row. cbn.
  rewrite py_or_idemp.
  destruct overwrite; [done|].
  rewrite metadata_update_idemp.
  by rewrite <- (assoc_L (∪)), (idemp_L (∪)).
Qed.

(** X9.  Updating a record twice with the same item stores what updating it
    once stores: the second update returns the same record and leaves the
    table as the first one left it (only a second event is signalled). *)
Theorem update_db_item_idempotent (item_id : string) (item : Artist.t)
    (overwrite : bool) (st st1 : State) (x : Artist.t) :
  update_db_item item_id item overwrite st = inr (x, st1) →
  ∃ st2,
    update_db_item item_id item overwrite st1 = inr (x, st2)
    ∧ db st2 = db st1.
Proof.
  intros (cur & Hcur & -> & ->)%update_db_item_returns.
  pose proof (update_db_item_stored item_id item overwrite st cur Hcur) as Hstored.
  rewrite get_db_item_run in Hstored.
  destruct (List.find (has_item_id item_id)
              (db (updated_state item_id item overwrite cur st)))
    as [cur'|] eqn:Hcur'; [|done].
  assert (cur' = written_row item overwrite cur cur) as ->.
  { cbn [db updated_state] in Hcur'.
    rewrite find_update_rows, Hcur in Hcur' by done. by injection Hcur'. }
  eexists. split.
  - rewrite (update_db_item_run _ _ _ _ _ Hcur').
    by rewrite written_row_idemp.
  - cbn [db updated_state]. rewrite <- list_fmap_compose.
    apply list_fmap_ext. intros i row _. cbn.
    destruct (has_item_id item_id row) eqn:Hid.
    + rewrite has_item_id_written, Hid. apply written_row_idemp.
    + by rewrite Hid.
Qed.

Lemma update_db_item_idempotent_witness :
  ∃ x st1 st2,
    update_db_item "1" incoming_artist false sample_state = inr (x, st1)
    ∧ update_db_item "1" incoming_artist false st1 = inr (x, st2)
    ∧ db st2 = db st1.
Proof.
  eexists _, _. 
  destruct (update_db_item_idempotent "1" incoming_artist false sample_state
              _ _ eq_refl) as (st2 & Hrun & Hdb).
  exists st2. split; [reflexivity|]. split; [exact Hrun | exact Hdb].
Defined.

(** X10.  An overwriting update takes [name], [sort_name], [metadata] and
    [provider_ids] from the incoming item as they are; the [musicbrainz_id]
    is the incoming one unless that is empty, in which case the stored one
    stays; [item_id] and [in_library] remain those of the record, whatever
    the incoming item carries. *)
Theorem update_db_item_overwrite (st : State) (item_id : string)
    (item cur : Artist.t) :
  get_db_item item_id st = inr (Some cur, st) →
  ∃ x st',
    update_db_item item_id item true st = inr (x, st')
    ∧ Artist.name x = Artist.name item
    ∧ Artist.sort_name x = Artist.sort_name item
    ∧ Artist.metadata x = Artist.metadata item
    ∧ Artist.provider_ids x = Artist.provider_ids item
    ∧ Artist.musicbrainz_id x
      = (if truthy (Artist.musicbrainz_id item)
         then Artist.musicbrainz_id item
         else Artist.musicbrainz_id cur)
    ∧ Artist.item_id x = item_id
    ∧ Artist.provider x = DATABASE
    ∧ Artist.in_library x = Artist.in_library cur.
Proof.
  intros (row & Hrow & ->)%get_db_item_Some.
  eexists _, _. split; [by apply update_db_item_run|].
  split_and!; try done.
  apply find_some in Hrow as [_ Hid]. unfold has_item_id in Hid.
  by apply bool_decide_eq_true in Hid.
Qed.

Lemma update_db_item_overwrite_witness :
  ∃ x st',
    update_db_item "1" unknown_artist true sample_state = inr (x, st')
    ∧ Artist.name x = "Solo"
    ∧ Artist.sort_name x = "solo"
    ∧ Artist.metadata x = ∅
    ∧ Artist.provider_ids x = Artist.provider_ids unknown_artist
    ∧ Artist.musicbrainz_id x = Some "mbid-stored"
    ∧ Artist.item_id x = "1"
    ∧ Artist.provider x = DATABASE
    ∧ Artist.in_library x = true.
Proof.
  apply (update_db_item_overwrite sample_state "1" unknown_artist
           (from_db_row sample_row)).
  reflexivity.
Defined.

(** ** [add_db_item] *)

Lemma add_db_item_result item overwrite_existing st :
  Artist.provider_ids item ≠ ∅ →
  NoDup (row_item_id <$> db st) →
  add_db_item item overwrite_existing st
  = match row_by_musicbrainz_id item (db st) with
    | Some row =>
        inr (from_db_row (written_row item overwrite_existing row row),
             updated_state (pretty (row_item_id row)) item overwrite_existing
                           row st)
    | None =>
        match row_by_sort_name item (db st) with
        | Some row =>
            inr (from_db_row (written_row item overwrite_existing row row),
                 updated_state (pretty (row_item_id row)) item
                               overwrite_existing row st)
        | None =>
            inr (from_db_row (to_db_row item (fresh_item_id (db st))),
                 inserted_state item st)
        end
    end.
Proof.
  intros Hpids Hkey. rewrite (add_db_item_cases _ _ _ Hpids).
  destruct (row_by_musicbrainz_id item (db st)) as [row|] eqn:Hmbid.
  - apply update_db_item_run, find_by_own_item_id; [done|].
    unfold row_by_musicbrainz_id in Hmbid.
    destruct (truthy _); [|done]. by apply find_Some_elem in Hmbid.
  - destruct (row_by_sort_name item (db st)) as [row|] eqn:Hname; [|done].
    apply update_db_item_run, find_by_own_item_id; [done|].
    by apply find_Some_elem in Hname.
Qed.

(** X11.  [add_db_item] refuses an item without provider mappings with
    the assertion error, in every state; on a table whose [item_id]s are
    unique that is its only failure: an item with a provider mapping is
    always stored. *)
Theorem add_db_item_fails_only_without_mappings (item : Artist.t)
    (overwrite_existing : bool) (st : State) :
  (Artist.provider_ids item = ∅ →
   add_db_item item overwrite_existing st
   = inl (AssertionError "Album is missing provider id(s)"))
  ∧ (Artist.provider_ids item ≠ ∅ →
     NoDup (row_item_id <$> db st) →
     ∃ x st', add_db_item item overwrite_existing st = inr (x, st')).
Proof.
  split.
  - intros Hempty. unfold add_db_item, bind at 1, assert.
    by rewrite bool_decide_eq_false_2 by (by intros ?).
  - intros Hpids Hkey. rewrite add_db_item_result by done.
    destruct (row_by_musicbrainz_id item (db st)); [eauto|].
    destruct (row_by_sort_name item (db st)); eauto.
Qed.

Lemma add_db_item_fails_only_without_mappings_witness :
  add_db_item other_artist_spotify false sample_state
  = inl (AssertionError "Album is missing provider id(s)")
  ∧ ∃ x st', add_db_item unknown_artist true sample_state = inr (x, st').
Proof.
  split.
  - apply (proj1 (add_db_item_fails_only_without_mappings
                    other_artist_spotify false sample_state)).
    reflexivity.
  - apply (proj2 (add_db_item_fails_only_without_mappings
                    unknown_artist true sample_state)).
    + exact (provider_ids_singleton_nonempty _).
    + apply NoDup_singleton.
Defined.

Lemma updated_state_item_ids item_id item overwrite cur st :
  row_item_id <$> db (updated_state item_id item overwrite cur st)
  = row_item_id <$> db st.
Proof.
  cbn [db updated_state]. rewrite <- list_fmap_compose.
  apply list_fmap_ext. intros i row _. cbn.
  by destruct (has_item_id item_id row).
Qed.

Lemma inserted_state_item_ids_NoDup item st :
  NoDup (row_item_id <$> db st) →
  NoDup (row_item_id <$> db (inserted_state item st)).
Proof.
  intros Hkey. cbn [db inserted_state]. rewrite fmap_app.
  apply NoDup_app. split_and!; [done| |apply NoDup_singleton].
  intros id (row & -> & Hrow)%list_elem_of_fmap Hin.
  apply list_elem_of_singleton in Hin. cbn in Hin.
  pose proof (fresh_item_id_above _ _ Hrow). lia.
Qed.

Lemma written_row_provider_ids item overwrite cur row :
  Artist.provider_ids item ⊆ row_provider_ids (written_row item overwrite cur row).
Proof. unfold written_row. destruct overwrite; cbn; set_solver. Qed.

Lemma add_db_item_stored (item : Artist.t) (overwrite_existing : bool)
    (st st' : State) (x : Artist.t) :
  Artist.provider_ids item ≠ ∅ →
  NoDup (row_item_id <$> db st) →
  add_db_item item overwrite_existing st = inr (x, st') →
  get_db_item (Artist.item_id x) st' = inr (Some x, st')
  ∧ Artist.provider x = DATABASE
  ∧ Artist.provider_ids item ⊆ Artist.provider_ids x
  ∧ NoDup (row_item_id <$> db st')
  ∧ (length (db st') = length (db st) ∨ length (db st') = S (length (db st))).
Proof.
  intros Hpids Hkey. rewrite add_db_item_result by done.
  assert (∀ row, row ∈ db st →
    @inr Exception _
      (from_db_row (written_row item overwrite_existing row row),
       updated_state (pretty (row_item_id row)) item overwrite_existing row st)
    = inr (x, st') →
    get_db_item (Artist.item_id x) st' = inr (Some x, st')
    ∧ Artist.provider x = DATABASE
    ∧ Artist.provider_ids item ⊆ Artist.provider_ids x
    ∧ NoDup (row_item_id <$> db st')
    ∧ (length (db st') = length (db st) ∨ length (db st') = S (length (db st))))
    as Hmerge.
  { intros row Hrow [= <- <-]. split_and!.
    - apply update_db_item_stored. by apply find_by_own_item_id.
    - done.
    - apply written_row_provider_ids.
    - by rewrite updated_state_item_ids.
    - left. cbn [db updated_state]. by rewrite length_fmap. }
  destruct (row_by_musicbrainz_id item (db st)) as [row|] eqn:Hmbid.
  - apply Hmerge. unfold row_by_musicbrainz_id in Hmbid.
    destruct (truthy _); [|done]. by apply find_Some_elem in Hmbid.
  - destruct (row_by_sort_name item (db st)) as [row|] eqn:Hname.
    + apply Hmerge. by apply find_Some_elem in Hname.
    + intros [= <- <-]. split_and!.
      * rewrite get_db_item_run. cbn [db inserted_state from_db_row Artist.item_id
                                      to_db_row row_item_id].
        by rewrite (find_inserted_row (db st) (to_db_row item)).
      * done.
      * done.
      * by apply inserted_state_item_ids_NoDup.
      * right. cbn [db inserted_state]. rewrite length_app. cbn. lia.
Qed.

(** X12.  What [add_db_item] returns is the stored record: it is a database
    item, reading the table under its [item_id] gives it back, and it
    carries every provider mapping of the added item.  The table keeps its
    [item_id]s unique and has the rows it had, or one more. *)
Theorem add_db_item_stores_item (item : Artist.t) (overwrite_existing : bool)
    (st st' : State) (x : Artist.t) :
  Artist.provider_ids item ≠ ∅ →
  NoDup (row_item_id <$> db st) →
  add_db_item item overwrite_existing st = inr (x, st') →
  get_db_item (Artist.item_id x) st' = inr (Some x, st')
  ∧ Artist.provider x = DATABASE
  ∧ Artist.provider_ids item ⊆ Artist.provider_ids x
  ∧ NoDup (row_item_id <$> db st')
  ∧ (length (db st') = length (db st) ∨ length (db st') = S (length (db st))).
Proof. apply add_db_item_stored. Qed.

Lemma add_db_item_stores_item_witness :
  ∃ x st',
    add_db_item unknown_artist false sample_state = inr (x, st')
    ∧ get_db_item (Artist.item_id x) st' = inr (Some x, st')
    ∧ Artist.provider x = DATABASE
    ∧ Artist.provider_ids unknown_artist ⊆ Artist.provider_ids x
    ∧ NoDup (row_item_id <$> db st')
    ∧ (length (db st') = length (db sample_state)
       ∨ length (db st') = S (length (db sample_state))).
Proof.
  exists (from_db_row (to_db_row unknown_artist 2)),
         (inserted_state unknown_artist sample_state).
  split; [reflexivity|].
  apply (add_db_item_stores_item unknown_artist false sample_state).
  - exact (provider_ids_singleton_nonempty _).
  - apply NoDup_singleton.
  - reflexivity.
Defined.

(** *** Adding the same item again *)

Lemma find_split {A} (P : A → bool) (l : list A) x :
  List.find P l = Some x →
  ∃ pre post, l = pre ++ x :: post ∧ P x = true ∧ ∀ y, y ∈ pre → P y = false.
Proof.
  induction l as [|a l IH]; [done|]. cbn [List.find].
  destruct (P a) eqn:Ha.
  - intros [= ->]. exists [], l. split_and!; [done..|].
    by intros y ?%elem_of_nil.
  - intros (pre & post & -> & Hx & Hpre)%IH.
    exists (a :: pre), post. split_and!; [done..|].
    intros y [-> | Hy]%elem_of_cons; auto.
Qed.

Lemma find_first {A} (P : A → bool) (pre post : list A) x :
  (∀ y, y ∈ pre → P y = false) → P x = true →
  List.find P (pre ++ x :: post) = Some x.
Proof.
  intros Hpre Hx. induction pre as [|a pre IH]; cbn [app List.find].
  - by rewrite Hx.
  - rewrite (Hpre a) by (apply elem_of_cons; by left).
    apply IH. intros y Hy. apply Hpre, elem_of_cons. by right.
Qed.

Lemma find_None_elem {A} (P : A → bool) (l : list A) y :
  List.find P l = None → y ∈ l → P y = false.
Proof. intros Hnone Hy%list_elem_of_In. by eapply find_none. Qed.

(** With unique [item_id]s an update rewrites the one row it addresses. *)
Lemma updated_rows_split item_id item overwrite cur pre row post :
  NoDup (row_item_id <$> (pre ++ row :: post)) →
  item_id = pretty (row_item_id row) →
  (fun r => if has_item_id item_id r
            then written_row item overwrite cur r else r)
    <$> (pre ++ row :: post)
  = pre ++ written_row item overwrite cur row :: post.
Proof.
  intros Hkey ->. rewrite fmap_app, fmap_cons.
  rewrite fmap_app, fmap_cons in Hkey.
  apply NoDup_app in Hkey as (_ & Hpre & [Hpost _]%NoDup_cons).
  assert (∀ l : list ArtistRow, row_item_id row ∉ row_item_id <$> l →
    (fun r => if has_item_id (pretty (row_item_id row)) r
              then written_row item overwrite cur r else r) <$> l = l)
    as Hsame.
  { intros l Hl. rewrite <- (list_fmap_id l) at 2.
    apply list_fmap_ext. intros i r Hr. cbn. unfold has_item_id.
    rewrite bool_decide_eq_false_2; [done|].
    intros Heq%(inj pretty). apply Hl. rewrite <- Heq.
    apply list_elem_of_fmap_2. by eapply list_elem_of_lookup_2. }
  rewrite !Hsame.
  - unfold has_item_id. by rewrite bool_decide_eq_true_2.
  - done.
  - intros Hin. apply (Hpre _ Hin), elem_of_cons. by left.
Qed.

(** The second of two equal adds: the table is [pre ++ row :: post], the
    lookups of [add_db_item] lead to [row], and [row] already holds what
    the item would write. *)
Lemma add_db_item_again item overwrite_existing st pre row post :
  Artist.provider_ids item ≠ ∅ →
  db st = pre ++ row :: post →
  NoDup (row_item_id <$> db st) →
  match row_by_musicbrainz_id item (db st) with
  | Some found => found = row
  | None => row_by_sort_name item (db st) = Some row
  end →
  written_row item overwrite_existing row row = row →
  ∃ st', add_db_item item overwrite_existing st = inr (from_db_row row, st')
         ∧ db st' = db st.
Proof.
  intros Hpids Hdb Hkey Hfound Hsame.
  rewrite add_db_item_result by done.
  assert (db (updated_state (pretty (row_item_id row)) item overwrite_existing
                            row st) = db st) as Hstate.
  { cbn [db updated_state]. rewrite Hdb in Hkey |- *.
    by rewrite (updated_rows_split _ _ _ _ _ _ _ Hkey), Hsame. }
  destruct (row_by_musicbrainz_id item (db st)) as [found|].
  - subst found. rewrite Hsame. eauto.
  - rewrite Hfound, Hsame. eauto.
Qed.

Lemma truthy_py_or x y : truthy x = true → py_or x y = x.
Proof. unfold py_or. by intros ->. Qed.

Lemma py_or_same x : py_or x x = x.
Proof. unfold py_or. by destruct (truthy x). Qed.

Lemma written_row_inserted item overwrite item_id :
  written_row item overwrite (to_db_row item item_id) (to_db_row item item_id)
  = to_db_row item item_id.
Proof.
  unfold written_row, to_db_row, metadata_update. cbn.
  rewrite py_or_same, !(idemp_L (∪)). by destruct overwrite.
Qed.

Lemma written_row_musicbrainz_id item overwrite cur row :
  truthy (Artist.musicbrainz_id item) = true →
  bool_decide (row_musicbrainz_id (written_row item overwrite cur row)
               = Artist.musicbrainz_id item) = true.
Proof. intros Htruthy. apply bool_decide_eq_true. cbn. by apply truthy_py_or. Qed.

Lemma written_row_sort_name item overwrite cur row :
  bool_decide (row_sort_name cur = Artist.sort_name item) = true →
  bool_decide (row_sort_name (written_row item overwrite cur row)
               = Artist.sort_name item) = true.
Proof.
  intros Hsort%bool_decide_eq_true. apply bool_decide_eq_true. cbn.
  by destruct overwrite.
Qed.

(** What a merge into the row [row] of [pre ++ row :: post] leaves. *)
Lemma merged_state_rows item overwrite pre row post st :
  db st = pre ++ row :: post →
  NoDup (row_item_id <$> db st) →
  db (updated_state (pretty (row_item_id row)) item overwrite row st)
  = pre ++ written_row item overwrite row row :: post.
Proof.
  intros Hdb Hkey. cbn [db updated_state]. rewrite Hdb in Hkey |- *.
  by apply updated_rows_split.
Qed.

(** X13.  Adding the same item a second time changes nothing in the table:
    on a table with unique [item_id]s, the second [add_db_item] finds the
    record the first one created or merged into, returns the same record
    and leaves every row as it was. *)
Theorem add_db_item_idempotent (item : Artist.t) (overwrite_existing : bool)
    (st st1 : State) (x : Artist.t) :
  Artist.provider_ids item ≠ ∅ →
  NoDup (row_item_id <$> db st) →
  add_db_item item overwrite_existing st = inr (x, st1) →
  ∃ st2,
    add_db_item item overwrite_existing st1 = inr (x, st2)
    ∧ db st2 = db st1.
Proof.
  intros Hpids Hkey. rewrite add_db_item_result by done.
  unfold row_by_musicbrainz_id.
  destruct (truthy (Artist.musicbrainz_id item)) eqn:Htruthy.
  - destruct (List.find _ (db st)) as [row|] eqn:Hmbid.
    { apply find_split in Hmbid as (pre & post & Hdb & Hrow & Hpre).
      intros [= <- <-].
      apply (add_db_item_again _ _ _ pre _ post); [done| | | |].
      - by apply merged_state_rows.
      - by rewrite updated_state_item_ids.
      - rewrite (merged_state_rows _ _ _ _ _ _ Hdb Hkey).
        unfold row_by_musicbrainz_id. rewrite Htruthy.
        rewrite find_first; [done|done|].
        by apply written_row_musicbrainz_id.
      - apply written_row_idemp. }
    destruct (row_by_sort_name item (db st)) as [row|] eqn:Hsort.
    { apply find_split in Hsort as (pre & post & Hdb & Hrow & Hpre).
      intros [= <- <-].
      apply (add_db_item_again _ _ _ pre _ post); [done| | | |].
      - by apply merged_state_rows.
      - by rewrite updated_state_item_ids.
      - rewrite (merged_state_rows _ _ _ _ _ _ Hdb Hkey).
        unfold row_by_musicbrainz_id. rewrite Htruthy.
        rewrite find_first; [done| |by apply written_row_musicbrainz_id].
        intros y Hy. apply (find_None_elem _ _ _ Hmbid).
        rewrite Hdb. apply elem_of_app. by left.
      - apply written_row_idemp. }
    intros [= <- <-].
    apply (add_db_item_again _ _ _ (db st) _ []); [done|done| | |].
    + by apply inserted_state_item_ids_NoDup.
    + cbn [db inserted_state]. unfold row_by_musicbrainz_id. rewrite Htruthy.
      rewrite find_first; [done| |by apply bool_decide_eq_true].
      intros y Hy. by apply (find_None_elem _ _ _ Hmbid).
    + apply written_row_inserted.
  - destruct (row_by_sort_name item (db st)) as [row|] eqn:Hsort.
    { apply find_split in Hsort as (pre & post & Hdb & Hrow & Hpre).
      intros [= <- <-].
      apply (add_db_item_again _ _ _ pre _ post); [done| | | |].
      - by apply merged_state_rows.
      - by rewrite updated_state_item_ids.
      - rewrite (merged_state_rows _ _ _ _ _ _ Hdb Hkey).
        unfold row_by_musicbrainz_id. rewrite Htruthy.
        unfold row_by_sort_name.
        apply find_first; [done|]. by apply written_row_sort_name.
      - apply written_row_idemp. }
    intros [= <- <-].
    apply (add_db_item_again _ _ _ (db st) _ []); [done|done| | |].
    + by apply inserted_state_item_ids_NoDup.
    + cbn [db inserted_state]. unfold row_by_musicbrainz_id. rewrite Htruthy.
      unfold row_by_sort_name in *.
      apply find_first; [|by apply bool_decide_eq_true].
      intros y Hy. by apply (find_None_elem _ _ _ Hsort).
    + apply written_row_inserted.
Qed.

Lemma add_db_item_idempotent_witness :
  ∃ x st1 st2,
    length (db st1) = S (length (db sample_state))
    ∧ add_db_item unknown_artist false sample_state = inr (x, st1)
    ∧ add_db_item unknown_artist false st1 = inr (x, st2)
    ∧ db st2 = db st1.
Proof.
  destruct (add_db_item_idempotent unknown_artist false sample_state
              (inserted_state unknown_artist sample_state)
              (from_db_row (to_db_row unknown_artist 2))
              (provider_ids_singleton_nonempty _)
              (NoDup_singleton _) eq_refl) as (st2 & Hrun & Hdb).
  exists (from_db_row (to_db_row unknown_artist 2)),
         (inserted_state unknown_artist sample_state), st2.
  split; [reflexivity|]. split; [reflexivity|]. split; [exact Hrun | exact Hdb].
Defined.

(** ** [_match] and [match_artist] *)

Lemma match_run_track_match mass db_artist provider st ref_tracks st1
    search_item_artist cur :
  toptracks mass (Artist.item_id db_artist) (Artist.provider db_artist) st
  = inr (ref_tracks, st1) →
  track_phase mass db_artist provider ref_tracks = Some search_item_artist →
  List.find (has_item_id (Artist.item_id db_artist)) (db st) = Some cur →
  _match mass db_artist provider st
  = inr (true,
         updated_state (Artist.item_id db_artist)
           (get_provider_item mass (Artist.item_id search_item_artist)
                              (Artist.provider search_item_artist))
           false cur st1).
Proof.
  intros Htop Htracks Hcur.
  destruct (leaves_records_toptracks _ _ _ _ _ _ Htop) as [Hdb1 _].
  unfold _match, bind at 1. rewrite Htop, Htracks.
  unfold bind at 1. erewrite update_db_item_run; [done|].
  by rewrite Hdb1.
Qed.



(** X15.  [_match] reports success exactly when some search result
    confirms: given that the listings return and the canonical record
    exists, it returns, and it returns [True] if and only if the track phase
    or the album phase has a confirming result. *)
Theorem match_succeeds_iff_confirmed (mass : Mass) (db_artist : Artist.t)
    (provider : MusicProvider.t) (st st1 st2 : State)
    (ref_tracks : list Track.t) (artist_albums : list Album.t)
    (cur : ArtistRow) :
  toptracks mass (Artist.item_id db_artist) (Artist.provider db_artist) st
  = inr (ref_tracks, st1) →
  albums mass (Artist.item_id db_artist) (Artist.provider db_artist) st1
  = inr (artist_albums, st2) →
  List.find (has_item_id (Artist.item_id db_artist)) (db st) = Some cur →
  ∃ matched st',
    _match mass db_artist provider st = inr (matched, st')
    ∧ (matched = true
       ↔ (∃ a, track_phase_confirmation mass db_artist provider ref_tracks a)
         ∨ (∃ a, album_phase_confirmation mass db_artist provider
                   artist_albums a)).
Proof.
  intros Htop Halbums Hcur.
  destruct (track_phase mass db_artist provider ref_tracks) as [a|] eqn:Htracks.
  - eexists _, _. split; [by eapply match_run_track_match|].
    split; [|done]. intros _. left. exists a. by apply track_phase_Some.
  - destruct (album_phase mass db_artist provider artist_albums) as [a|]
      eqn:Hphase.
    + eexists _, _. split; [by eapply match_run_album_match|].
      split; [|done]. intros _. right. exists a. by apply album_phase_Some.
    + eexists _, _. split; [by eapply match_run_no_match|].
      split; [done|]. intros [[a Ha]|[a Ha]].
      * apply track_phase_confirmed in Ha. rewrite Htracks in Ha.
        by destruct Ha.
      * apply album_phase_confirmed in Ha. rewrite Hphase in Ha.
        by destruct Ha.
Qed.

Lemma match_succeeds_iff_confirmed_witness :
  ∃ matched st',
    _match guest_mass (from_db_row sample_row) qobuz_provider sample_state
    = inr (matched, st')
    ∧ (matched = true
       ↔ (∃ a, track_phase_confirmation guest_mass (from_db_row sample_row)
                 qobuz_provider [sample_track_spotify] a)
         ∨ (∃ a, album_phase_confirmation guest_mass (from_db_row sample_row)
                   qobuz_provider [guest_album_spotify] a)).
Proof.
  apply (match_succeeds_iff_confirmed guest_mass (from_db_row sample_row)
           qobuz_provider sample_state sample_state_tracks_listed
           sample_state_listed [sample_track_spotify] [guest_album_spotify]
           sample_row); reflexivity.
Defined.

(** X16.  Compilations and albums without an artist are never used as
    fingerprints: when every album of the listing is one or the other, the
    album phase finds nothing, whatever the album search would return. *)
Theorem compilations_never_confirm (mass : Mass) (db_artist : Artist.t)
    (provider : MusicProvider.t) (artist_albums : list Album.t) :
  (∀ album, album ∈ artist_albums →
            Album.album_type album = COMPILATION ∨ Album.artist album = None) →
  album_phase mass db_artist provider artist_albums = None.
Proof.
  intros Hall. unfold album_phase. apply first_some_None.
  intros album Halbum. unfold match_ref_album.
  destruct (Hall album Halbum) as [Htype | Hartist].
  - by rewrite decide_True.
  - rewrite Hartist. by destruct (decide _).
Qed.

Lemma compilations_never_confirm_witness :
  album_phase guest_mass (from_db_row sample_row) qobuz_provider
    [compilation_album_spotify; sample_album_spotify]
  = None.
Proof.
  apply compilations_never_confirm.
  intros album Halbum. apply list_elem_of_In in Halbum.
  destruct Halbum as [<- | [<- | []]]; [by left | by right].
Defined.

Lemma match_artist_loop_skips mass db_artist cur_prov_types providers st :
  (∀ provider, provider ∈ providers →
     MusicProvider.type provider ∈ cur_prov_types
     ∨ ARTIST ∉ MusicProvider.supported_mediatypes provider) →
  match_artist_loop mass db_artist cur_prov_types providers st = inr (tt, st).
Proof.
  induction providers as [|provider providers IH]; intros Hall; [done|].
  cbn [match_artist_loop].
  assert (∀ p, p ∈ providers →
            MusicProvider.type p ∈ cur_prov_types
            ∨ ARTIST ∉ MusicProvider.supported_mediatypes p) as Hrest
    by (intros p Hp; apply Hall, elem_of_cons; by right).
  destruct (Hall provider ltac:(apply elem_of_cons; by left)) as [Hlinked|Hno].
  - rewrite decide_True by done. by apply IH.
  - destruct (decide (MusicProvider.type provider ∈ cur_prov_types));
      [by apply IH|].
    rewrite decide_True by done. by apply IH.
Qed.

(** X17.  [match_artist] only works on a database item, and it searches no
    provider whose type the record is already linked to or that does not
    support artists: for an item of another provider it fails with the
    assertion error, and when every registered provider is linked or
    unsupported it returns with the state untouched. *)
Theorem match_artist_skips_linked_providers (mass : Mass)
    (db_artist : Artist.t) (st : State) :
  (Artist.provider db_artist ≠ DATABASE →
   match_artist mass db_artist st
   = inl (AssertionError "Matching only supported for database items!"))
  ∧ (Artist.provider db_artist = DATABASE →
     (∀ provider, provider ∈ music_providers mass →
        (∃ item, item ∈ Artist.provider_ids db_artist
                 ∧ MediaItemProviderId.prov_type item
                   = MusicProvider.type provider)
        ∨ ARTIST ∉ MusicProvider.supported_mediatypes provider) →
     match_artist mass db_artist st = inr (tt, st)).
Proof.
  split.
  - intros Hprov. unfold match_artist, bind at 1, assert.
    by rewrite bool_decide_eq_false_2.
  - intros Hprov Hall. unfold match_artist, bind at 1, assert.
    rewrite bool_decide_eq_true_2 by done. cbn [ret]. cbv zeta.
    apply match_artist_loop_skips. intros provider Hp.
    destruct (Hall provider Hp) as [(item & Hitem & Htype)|Hno]; [|by right].
    left. apply elem_of_map. eauto.
Qed.

Lemma match_artist_skips_linked_providers_witness :
  match_artist track_mass band_artist_qobuz sample_state
  = inl (AssertionError "Matching only supported for database items!")
  ∧ match_artist twin_mass (from_db_row sample_row) sample_state
    = inr (tt, sample_state).
Proof.
  split.
  - apply (proj1 (match_artist_skips_linked_providers track_mass
                    band_artist_qobuz sample_state)).
    discriminate.
  - apply (proj2 (match_artist_skips_linked_providers twin_mass
                    (from_db_row sample_row) sample_state)); [reflexivity|].
    intros provider Hp. left.
    exists (MediaItemProviderId.mk "sp-artist-1" spotify "spotify_1").
    split; [reflexivity|].
    apply list_elem_of_In in Hp. by destruct Hp as [<- | [<- | []]].
Defined.

(** *** Matching only adds provenance *)

Lemma row_only_adds_refl row : row_only_adds row row.
Proof. by split_and!. Qed.

Lemma row_only_adds_trans r1 r2 r3 :
  row_only_adds r1 r2 → row_only_adds r2 r3 → row_only_adds r1 r3.
Proof.
  intros (? & ? & ? & ? & ? & ?) (? & ? & ? & ? & ? & ?).
  split_and!; [congruence..|set_solver|set_solver].
Qed.

Lemma only_adds_mappings_refl rows : only_adds_mappings rows rows.
Proof.
  unfold only_adds_mappings. induction rows; constructor;
    [apply row_only_adds_refl | done].
Qed.

Lemma only_adds_mappings_trans rows1 rows2 rows3 :
  only_adds_mappings rows1 rows2 → only_adds_mappings rows2 rows3 →
  only_adds_mappings rows1 rows3.
Proof.
  unfold only_adds_mappings. intros H12. revert rows3.
  induction H12 as [|r1 r2 rows1 rows2 Hr _ IH]; intros rows3 H23.
  - by inversion H23.
  - inversion H23 as [|? r3 ? rows3' Hr' H23']; subst. constructor.
    + by eapply row_only_adds_trans.
    + by apply IH.
Qed.

Lemma only_adds_mappings_item_ids rows rows' :
  only_adds_mappings rows rows' →
  row_item_id <$> rows' = row_item_id <$> rows.
Proof.
  induction 1 as [|r r' rows rows' (Hid & _) _ IH]; [done|].
  by rewrite !fmap_cons, Hid, IH.
Qed.

Lemma only_adds_mappings_find item_id rows rows' row :
  only_adds_mappings rows rows' →
  List.find (has_item_id item_id) rows = Some row →
  ∃ row', List.find (has_item_id item_id) rows' = Some row'
          ∧ row_only_adds row row'.
Proof.
  induction 1 as [|r r' rows rows' Hr _ IH]; [done|]. cbn [List.find].
  assert (has_item_id item_id r' = has_item_id item_id r) as ->.
  { unfold has_item_id. by destruct Hr as (-> & _). }
  destruct (has_item_id item_id r); [|done].
  intros [= <-]. eauto.
Qed.

Lemma NoDup_item_ids_eq rows r1 r2 :
  NoDup (row_item_id <$> rows) → r1 ∈ rows → r2 ∈ rows →
  row_item_id r1 = row_item_id r2 → r1 = r2.
Proof.
  induction rows as [|r rows IH]; [by intros _ ?%elem_of_nil|].
  rewrite fmap_cons. intros [Hr Hnd]%NoDup_cons.
  intros [-> | H1]%elem_of_cons [-> | H2]%elem_of_cons Hid; [done| | |by apply IH].
  - exfalso. apply Hr. rewrite Hid. by apply list_elem_of_fmap_2.
  - exfalso. apply Hr. rewrite <- Hid. by apply list_elem_of_fmap_2.
Qed.

Lemma only_adds_mappings_fmap (g : ArtistRow → ArtistRow) rows :
  (∀ row, row ∈ rows → row_only_adds row (g row)) →
  only_adds_mappings rows (g <$> rows).
Proof.
  unfold only_adds_mappings. induction rows as [|r rows IH]; intros Hall.
  - constructor.
  - rewrite fmap_cons. constructor.
    + apply Hall, elem_of_cons. by left.
    + apply IH. intros row Hrow. apply Hall, elem_of_cons. by right.
Qed.

Lemma keeps_records_of_leaves {A} (m : M A) :
  leaves_records m → keeps_records m.
Proof.
  intros Hm st x st' _ Hrun. destruct (Hm _ _ _ Hrun) as [-> _].
  apply only_adds_mappings_refl.
Qed.

Lemma keeps_records_bind {A B} (m : M A) (k : A → M B) :
  keeps_records m → (∀ x, keeps_records (k x)) → keeps_records (bind m k).
Proof.
  intros Hm Hk st y st' Hkey. unfold bind.
  destruct (m st) as [e|[x st1]] eqn:Hrun; [done|].
  intros Hrun'. pose proof (Hm _ _ _ Hkey Hrun) as Hadds.
  eapply only_adds_mappings_trans; [exact Hadds|].
  apply (Hk x st1 y st'); [|done].
  by rewrite (only_adds_mappings_item_ids _ _ Hadds).
Qed.

Lemma keeps_records_ret {A} (x : A) : keeps_records (ret x).
Proof. apply keeps_records_of_leaves, leaves_records_ret. Qed.

Lemma keeps_records_update_db_item item_id item :
  keeps_records (update_db_item item_id item false).
Proof.
  intros st x st' Hkey (cur & Hcur & -> & ->)%update_db_item_returns.
  cbn [db updated_state]. apply only_adds_mappings_fmap. intros row Hrow.
  destruct (has_item_id item_id row) eqn:Hid; [|apply row_only_adds_refl].
  assert (row = cur) as ->.
  { apply (NoDup_item_ids_eq (db st)); [done|done|by eapply find_Some_elem|].
    apply find_some in Hcur as [_ Hcur].
    unfold has_item_id in Hid, Hcur.
    apply bool_decide_eq_true in Hid, Hcur.
    apply (inj pretty). congruence. }
  unfold row_only_adds, written_row, metadata_update. cbn.
  split_and!; [done..|set_solver|].
  rewrite dom_union. set_solver.
Qed.

Lemma keeps_records_match mass db_artist provider :
  keeps_records (_match mass db_artist provider).
Proof.
  unfold _match.
  apply keeps_records_bind;
    [apply keeps_records_of_leaves, leaves_records_toptracks|].
  intros ref_tracks.
  destruct (track_phase mass db_artist provider ref_tracks).
  - apply keeps_records_bind; [apply keeps_records_update_db_item|].
    intros; apply keeps_records_ret.
  - apply keeps_records_bind;
      [apply keeps_records_of_leaves, leaves_records_albums|].
    intros artist_albums.
    destruct (album_phase mass db_artist provider artist_albums).
    + apply keeps_records_bind; [apply keeps_records_update_db_item|].
      intros; apply keeps_records_ret.
    + apply keeps_records_ret.
Qed.

Lemma keeps_records_match_artist_loop mass db_artist cur_prov_types providers :
  keeps_records (match_artist_loop mass db_artist cur_prov_types providers).
Proof.
  revert cur_prov_types.
  induction providers as [|provider providers IH]; intros cur_prov_types;
    cbn [match_artist_loop]; [apply keeps_records_ret|].
  destruct (decide (_ ∈ cur_prov_types)); [apply IH|].
  destruct (decide (ARTIST ∉ _)); [apply IH|].
  apply keeps_records_bind; [apply keeps_records_match|].
  intros [|]; apply IH.
Qed.

Lemma keeps_records_match_artist mass db_artist :
  keeps_records (match_artist mass db_artist).
Proof.
  unfold match_artist. apply keeps_records_bind.
  - apply keeps_records_of_leaves. unfold assert.
    destruct (bool_decide _);
      [apply leaves_records_ret | apply leaves_records_raise].
  - intros _. apply keeps_records_match_artist_loop.
Qed.

(** X18.  Matching only adds provenance.  Whenever [_match] or
    [match_artist] returns on a table with unique [item_id]s, the table
    has the same rows in the same order, each with its [item_id], [name],
    [sort_name] and [in_library] flag unchanged, with every provider
    mapping and every metadata key it had before. *)
Theorem matching_only_adds_mappings (mass : Mass) (db_artist : Artist.t) :
  (∀ provider, keeps_records (_match mass db_artist provider))
  ∧ keeps_records (match_artist mass db_artist).
Proof.
  split; [intros; apply keeps_records_match|apply keeps_records_match_artist].
Qed.

Lemma matching_only_adds_mappings_witness :
  match_artist track_mass (from_db_row sample_row) sample_state
  = inr (tt, updated_state "1" band_artist_qobuz false sample_row
               sample_state_tracks_listed)
  ∧ only_adds_mappings (db sample_state)
      (db (updated_state "1" band_artist_qobuz false sample_row
             sample_state_tracks_listed)).
Proof.
  split; [reflexivity|].
  apply (proj2 (matching_only_adds_mappings track_mass (from_db_row sample_row))
           sample_state tt).
  - apply NoDup_singleton.
  - reflexivity.
Defined.

(** X19.  What [add] returns is the stored record after matching: on a
    table with unique [item_id]s, whenever [add] returns, it returns a
    database item that carries every provider mapping of the item as the
    metadata helper left it, and the [item_id]s of the table are still
    unique. *)
Theorem add_returns_stored_record (mass : Mass) (item : Artist.t)
    (st st' : State) (result : option Artist.t) :
  NoDup (row_item_id <$> db st) →
  add mass item st = inr (result, st') →
  ∃ x, result = Some x
       ∧ Artist.provider x = DATABASE
       ∧ Artist.provider_ids (get_artist_metadata mass item)
         ⊆ Artist.provider_ids x
       ∧ NoDup (row_item_id <$> db st').
Proof.
  intros Hkey. unfold add. cbv zeta. unfold bind at 1.
  destruct (add_db_item (get_artist_metadata mass item) false st)
    as [e|[db_item st1]] eqn:Hadd; [done|].
  assert (Artist.provider_ids (get_artist_metadata mass item) ≠ ∅) as Hpids.
  { intros Hempty. unfold add_db_item, bind at 1, assert in Hadd.
    by rewrite bool_decide_eq_false_2 in Hadd by (by intros ?). }
  destruct (add_db_item_stored _ _ _ _ _ Hpids Hkey Hadd)
    as (Hread & Hprov & Hsub & Hkey1 & _).
  unfold bind at 1.
  destruct (match_artist mass db_item st1) as [e|[[] st2]] eqn:Hmatch; [done|].
  pose proof (keeps_records_match_artist _ _ _ _ _ Hkey1 Hmatch) as Hadds.
  rewrite get_db_item_run in Hread |- *.
  destruct (List.find (has_item_id (Artist.item_id db_item)) (db st1))
    as [row|] eqn:Hrow; [|done].
  destruct (only_adds_mappings_find _ _ _ _ Hadds Hrow)
    as (row' & -> & (_ & _ & _ & _ & Hgrow & _)).
  intros [= <- <-]. eexists. split; [done|]. split_and!.
  - done.
  - injection Hread as <-. cbn in Hsub |- *. set_solver.
  - by rewrite (only_adds_mappings_item_ids _ _ Hadds).
Qed.

Lemma add_returns_stored_record_witness :
  ∃ x st',
    add track_mass enriched_artist sample_state = inr (Some x, st')
    ∧ Artist.provider x = DATABASE
    ∧ Artist.provider_ids enriched_artist ⊆ Artist.provider_ids x
    ∧ NoDup (row_item_id <$> db st').
Proof.
  destruct (add_returns_stored_record track_mass enriched_artist sample_state
              (updated_state "1" enriched_artist false sample_row sample_state)
              (Some (from_db_row
                       (written_row enriched_artist false sample_row sample_row)))
              (NoDup_singleton _) eq_refl)
    as (x & Hx & Hprov & Hsub & Hkey).
  exists x, (updated_state "1" enriched_artist false sample_row sample_state).
  injection Hx as <-. split; [reflexivity|]. by split_and!.
Defined.

Lemma match_artist_loop_app mass db_artist cur_prov_types pre rest st :
  (∀ provider, provider ∈ pre →
     MusicProvider.type provider ∈ cur_prov_types
     ∨ ARTIST ∉ MusicProvider.supported_mediatypes provider) →
  match_artist_loop mass db_artist cur_prov_types (pre ++ rest) st
  = match_artist_loop mass db_artist cur_prov_types rest st.
Proof.
  induction pre as [|provider pre IH]; intros Hall; [done|].
  cbn [app match_artist_loop].
  assert (match_artist_loop mass db_artist cur_prov_types (pre ++ rest) st
          = match_artist_loop mass db_artist cur_prov_types rest st) as Hrest.
  { apply IH. intros p Hp. apply Hall, elem_of_cons. by right. }
  destruct (Hall provider ltac:(apply elem_of_cons; by left)) as [Hlinked|Hno].
  - by rewrite decide_True.
  - destruct (decide (MusicProvider.type provider ∈ cur_prov_types)); [done|].
    by rewrite decide_True.
Qed.

(** X20.  One confirmed match per provider type: once [_match] succeeded on
    a provider, [match_artist] searches no later provider of that type.  If
    the providers before it are skipped and every provider after it has its
    type (or is linked already, or does not support artists), the state
    [match_artist] leaves is the one that match left. *)
Theorem one_match_per_provider_type (mass : Mass) (db_artist : Artist.t)
    (pre rest : list MusicProvider.t) (provider : MusicProvider.t)
    (st st1 : State) :
  let linked : gset ProviderType :=
    set_map MediaItemProviderId.prov_type (Artist.provider_ids db_artist) in
  Artist.provider db_artist = DATABASE →
  music_providers mass = pre ++ provider :: rest →
  (∀ p, p ∈ pre →
     MusicProvider.type p ∈ linked
     ∨ ARTIST ∉ MusicProvider.supported_mediatypes p) →
  MusicProvider.type provider ∉ linked →
  ARTIST ∈ MusicProvider.supported_mediatypes provider →
  _match mass db_artist provider st = inr (true, st1) →
  (∀ p, p ∈ rest →
     MusicProvider.type p = MusicProvider.type provider
     ∨ MusicProvider.type p ∈ linked
     ∨ ARTIST ∉ MusicProvider.supported_mediatypes p) →
  match_artist mass db_artist st = inr (tt, st1).
Proof.
  intros linked Hprov Hproviders Hpre Hnew Hsupported Hmatch Hrest.
  unfold match_artist, bind at 1, assert.
  rewrite bool_decide_eq_true_2 by done. cbn [ret]. cbv zeta.
  rewrite Hproviders, match_artist_loop_app by done.
  cbn [match_artist_loop].
  rewrite decide_False by done.
  rewrite decide_False by (by intros ?).
  unfold bind at 1. rewrite Hmatch.
  apply match_artist_loop_skips. intros p Hp.
  destruct (Hrest p Hp) as [-> | [Hlinked | Hno]]; [| |by right].
  - left. apply elem_of_union. right. by apply elem_of_singleton.
  - left. apply elem_of_union. by left.
Qed.

Lemma one_match_per_provider_type_witness :
  match_artist two_accounts_mass (from_db_row sample_row) sample_state
  = inr (tt, updated_state "1" band_artist_qobuz false sample_row
               sample_state_tracks_listed).
Proof.
  apply (one_match_per_provider_type two_accounts_mass (from_db_row sample_row)
           [spotify_provider] [qobuz_provider_2] qobuz_provider).
  - reflexivity.
  - reflexivity.
  - intros p ->%list_elem_of_singleton. left. reflexivity.
  - intros (item & Htype & Hitem)%elem_of_map.
    change (item ∈ ({[ MediaItemProviderId.mk "sp-artist-1" spotify
                         "spotify_1" ]} : ProviderIds)) in Hitem.
    apply elem_of_singleton in Hitem as ->. discriminate Htype.
  - apply list_elem_of_In. simpl. tauto.
  - reflexivity.
  - intros p ->%list_elem_of_singleton. by left.
Defined.

(** X21.  A per-provider listing found in the cache is returned as it is,
    without asking the provider and without scheduling a write; but a cached
    empty listing does not count as found: the provider is asked again and a
    new write is scheduled. *)
Theorem cached_listing_policy (mass : Mass) (item_id provider_id : string)
    (prov : MusicProvider.t) (st : State) :
  get_provider mass provider_id = Some prov →
  let cache_key :=
    value (MusicProvider.type prov) +:+ ".artist_toptracks." +:+ item_id in
  (∀ x xs,
     cache st !! cache_key = Some (CachedTracks (x :: xs)) →
     get_provider_artist_toptracks mass item_id provider_id st
     = inr (x :: xs, st))
  ∧ (cache st !! cache_key = Some (CachedTracks []) →
     get_provider_artist_toptracks mass item_id provider_id st
     = inr (MusicProvider.get_artist_toptracks prov item_id,
            {| db := db st; cache := cache st;
               tasks := tasks st
                        ++ [ CacheSet cache_key
                               (CachedTracks
                                  (MusicProvider.get_artist_toptracks
                                     prov item_id)) ];
               events := events st |})).
Proof.
  intros Hprov cache_key. split.
  - intros x xs Hhit. unfold get_provider_artist_toptracks. rewrite Hprov.
    cbv zeta. unfold bind at 1, cache_get, bind at 1. cbn [get_state ret].
    fold cache_key. by rewrite Hhit.
  - intros Hempty. unfold get_provider_artist_toptracks. rewrite Hprov.
    cbv zeta. unfold bind at 1, cache_get, bind at 1. cbn [get_state ret].
    fold cache_key. by rewrite Hempty.
Qed.

Lemma cached_listing_policy_witness :
  get_provider_artist_toptracks quiet_mass "sp-artist-1" "spotify_1"
    (cache_set "spotify.artist_toptracks.sp-artist-1"
               (CachedTracks [renamed_track_qobuz]) sample_state)
  = inr ([renamed_track_qobuz],
         cache_set "spotify.artist_toptracks.sp-artist-1"
                   (CachedTracks [renamed_track_qobuz]) sample_state).
Proof.
  apply (proj1 (cached_listing_policy quiet_mass "sp-artist-1" "spotify_1"
                  spotify_provider
                  (cache_set "spotify.artist_toptracks.sp-artist-1"
                             (CachedTracks [renamed_track_qobuz]) sample_state)
                  eq_refl)).
  reflexivity.
Defined.
